(** * wordle_solver: the evaluator, the constraint engine and the puzzle loop

    A shallow embedding of [main.py] and the properties of its core.

    - A Python [str] is a list of characters, a word list a list of words.
      The characters are the 256 code points U+0000 to U+00FF; a string
      with a character beyond them is outside the model (see [lower_char]).
    - Exceptions are values of [exn]; a call that may raise returns a
      [result].
    - [Char.colour] is an [option Colour]: [None] is the colour of a
      character between the two loops of [Guess.create_from_word].
    - The objects that the program mutates are threaded explicitly: the
      list of characters that the second loop of [create_from_word] colours
      in place, the [Puzzle] that [enter_word] appends to, and, in
      [Store], the lists and [Constraint] instances that
      [update_constraints] copies and appends to.
    - The position sets of a [Constraint] are finite sets of naturals, and
      a Python [set] is iterated in an order that the program does not
      control, and that may depend on how the set was built: [SetOrder].
    - The letter frequencies and the scores are binary64 floats, as in the
      source: the decimals of the table are rounded to the nearest float,
      and the additions and comparisons are those of IEEE 754. *)

From Stdlib Require Import Ascii String Floats.
From stdpp Require Import gmap strings list fin_maps.

Local Open Scope nat_scope.

(** A decimal stands for the binary64 float nearest to it, as a float
    literal of Python does. *)
Set Warnings "-inexact-float".

(** ** Exceptions *)

(** One constructor per [raise] site or raising primitive of the source. *)
Inductive exn : Type :=
  | ExceededMaxGuesses   (* ValueError, Puzzle.enter_word, first check   *)
  | WrongWordLength      (* ValueError, Puzzle.enter_word, second check  *)
  | UnknownCharacters    (* ValueError, Puzzle.enter_word, third check   *)
  | UnexpectedColour     (* ValueError, update_constraints, last branch  *)
  | EmptySequence        (* ValueError, max() of an empty list           *)
  | IndexError           (* word[position] out of range                  *)
  | KeyError.            (* CHAR_TO_FREQUENCY[char], unknown char        *)

Inductive result (A : Type) : Type :=
  | Ok (a : A)
  | Raise (e : exn).
Arguments Ok {A} a.
Arguments Raise {A} e.

#[global] Instance result_ret : MRet result := λ A a, Ok a.

(** An exception skips the rest of the computation. *)
#[global] Instance result_bind : MBind result := λ A B k m,
  match m with
  | Ok a => k a
  | Raise e => Raise e
  end.

#[global] Instance exn_eq_dec : EqDecision exn.
Proof. solve_decision. Defined.

(** ** Colours, characters, guesses *)

Inductive Colour : Type := GREY | YELLOW | GREEN.

#[global] Instance Colour_eq_dec : EqDecision Colour.
Proof. solve_decision. Defined.

(** A word is a Python [str]. *)
Abbreviation word := (list ascii).

Definition w (s : string) : word := list_ascii_of_string s.

(** [Char.colour] holds [None] between the two passes of
    [Guess.create_from_word]. *)
Record Char : Type := mkChar { letter : ascii; colour : option Colour }.

Record Guess : Type := mkGuess { chars : list Char }.

(** The number of items of a list that satisfy [P]. *)
Definition count {A} (P : A → Prop) `{!∀ x, Decision (P x)} (l : list A)
  : nat :=
  length (filter P l).

(** [Counter(s)[c]]: the number of occurrences of [c] in [s]. *)
Definition Counter (s : word) (c : ascii) : nat := count (λ x, x = c) s.

(** [other_char.letter == c and other_char.colour in (GREEN, YELLOW)] *)
Definition recognised (c : ascii) (other_char : Char) : Prop :=
  letter other_char = c
  ∧ (colour other_char = Some GREEN ∨ colour other_char = Some YELLOW).

#[global] Instance recognised_dec c o : Decision (recognised c o).
Proof. unfold recognised. apply _. Defined.

(** The body of the first loop of [create_from_word]. *)
Definition first_colour (solution : word) (char solution_char : ascii)
  : option Colour :=
  if bool_decide (char = solution_char) then Some GREEN
  else if bool_decide (char ∉ solution) then Some GREY
  else None.

(** First loop:
    [for i, (char, solution_char) in enumerate(zip(word, solution))]. *)
Definition pass1 (wd solution : word) : list Char :=
  (λ p, mkChar p.1 (first_colour solution p.1 p.2)) <$> zip wd solution.

(** The body of the second loop at index [i]; [char.colour = ...] writes
    into the object stored at [chars[i]], which the later iterations
    read back through [chars]. *)
Definition resolve (solution : word) (chars : list Char) (i : nat)
  : list Char :=
  match chars !! i with
  | None => chars
  | Some char =>
      match colour char with
      | Some _ => chars
      | None =>
          let num_instances_in_solution := Counter solution (letter char) in
          let num_instances_recognised_so_far :=
            count (recognised (letter char)) chars in
          let should_be_yellow :=
            bool_decide (num_instances_recognised_so_far
                         < num_instances_in_solution) in
          <[i := mkChar (letter char)
                   (Some (if should_be_yellow then YELLOW else GREY))]> chars
      end
  end.

(** The list of characters after the first [k] rounds of the second
    loop, [for i, char in enumerate(chars)]. *)
Definition pass2_upto (solution : word) (chars : list Char) (k : nat)
  : list Char :=
  foldl (resolve solution) chars (seq 0 k).

Definition pass2 (solution : word) (chars : list Char) : list Char :=
  pass2_upto solution chars (length chars).

Definition create_from_word (wd solution : word) : Guess :=
  mkGuess (pass2 solution (pass1 wd solution)).

Definition colours (g : Guess) : list (option Colour) := colour <$> chars g.

(** [Guess.is_correct] *)
Definition is_correct (g : Guess) : bool :=
  forallb (λ ch, bool_decide (colour ch = Some GREEN)) (chars g).

(** ** The puzzle *)

Definition ALL_CHARS : gset ascii :=
  list_to_set (w "abcdefghijklmnopqrstuvwxyz").

Definition MAX_NUM_GUESSES : nat := 6.
Definition WORD_LENGTH : nat := 5.

Record Puzzle : Type := mkPuzzle { solution : word; guesses : list Guess }.

(** [str.lower] on the characters U+0000 to U+00FF: the capitals A..Z
    and, of Latin-1, U+00C0..U+00DE without the multiplication sign U+00D7
    are moved by 32; every other character is kept.  Only A..Z have a
    lower case among a..z.  (Beyond U+00FF, outside this model, [str.lower]
    sends one more character into a..z: U+212A, the Kelvin sign, to k.) *)
Definition lower_char (c : ascii) : ascii :=
  let n := nat_of_ascii c in
  if (65 <=? n) && (n <=? 90)
     || (192 <=? n) && (n <=? 222) && negb (n =? 215)
  then ascii_of_nat (n + 32)
  else c.

Definition lower (wd : word) : word := lower_char <$> wd.

(** [Puzzle.enter_word]: the outcome of the call and the puzzle after it. *)
Definition enter_word (self : Puzzle) (wd : word) : result Guess * Puzzle :=
  if bool_decide (MAX_NUM_GUESSES ≤ length (guesses self)) then
    (Raise ExceededMaxGuesses, self)
  else if bool_decide (length wd ≠ WORD_LENGTH) then
    (Raise WrongWordLength, self)
  else
    let wd := lower wd in
    let unknown_chars : gset ascii := list_to_set wd ∖ ALL_CHARS in
    if bool_decide (unknown_chars ≠ ∅) then (Raise UnknownCharacters, self)
    else
      let guess := create_from_word wd (solution self) in
      (Ok guess, mkPuzzle (solution self) (guesses self ++ [guess])).

(** [Puzzle.won] *)
Definition won (self : Puzzle) : bool :=
  match last (guesses self) with
  | None => false
  | Some g => is_correct g
  end.

(** [Puzzle.is_in_progress] *)
Definition is_in_progress (self : Puzzle) : bool :=
  if won self then false
  else bool_decide (length (guesses self) < MAX_NUM_GUESSES).

(** ** Constraints *)

Inductive ConstraintType : Type := IN_SOME_POSITION | NOT_IN_POSITIONS.

#[global] Instance ConstraintType_eq_dec : EqDecision ConstraintType.
Proof. solve_decision. Defined.

(** The positions are indices produced by [enumerate] and [range], hence
    naturals. *)
Record Constraint : Type := mkConstraint {
  char : ascii;
  positions : gset nat;
  type : ConstraintType
}.

#[global] Instance Constraint_eq_dec : EqDecision Constraint.
Proof. solve_decision. Defined.

(** Python does not fix the order in which a [set] is iterated; the
    program is modelled for an arbitrary one.  [iter] visits a set of
    positions.  [iter_set wd] is the order in which [set(wd)] is visited:
    it holds each character of [wd] once, and it may depend on the order in
    which the characters were inserted, so that two words with the same
    letters need not be visited alike. *)
Class SetOrder : Type := {
  iter : ∀ {A} `{Countable A}, gset A → list A;
  iter_perm : ∀ {A} `{Countable A} (X : gset A), iter X ≡ₚ elements X;
  iter_set : word → list ascii;
  iter_set_perm : ∀ wd, iter_set wd ≡ₚ elements (list_to_set wd : gset ascii)
}.

(** The order stdpp enumerates a set in is one of them. *)
Definition elements_order : SetOrder :=
  {| iter := λ A _ _ X, elements X;
     iter_perm := λ A _ _ X, reflexivity _;
     iter_set := λ wd, elements (list_to_set wd : gset ascii);
     iter_set_perm := λ wd, reflexivity _ |}.

(** Another one visits two sets as CPython 3.11 does when it is run with
    PYTHONHASHSEED=59: the letters of "later" as a, e, l, r, t and those
    of "alert" as a, l, r, t, e. *)
Definition observed_iter_set (wd : word) : list ascii :=
  if decide (wd = w "later") then w "aelrt"
  else if decide (wd = w "alert") then w "alrte"
  else elements (list_to_set wd : gset ascii).

Definition observed_order : SetOrder.
Proof.
  refine {| iter := λ A _ _ X, elements X;
            iter_perm := λ A _ _ X, reflexivity _;
            iter_set := observed_iter_set |}.
  intros wd. unfold observed_iter_set.
  repeat case_decide; subst; [..|done];
    apply (bool_decide_unpack _); vm_compute; exact I.
Defined.

(** [any(word[position] == c for position in ps)]: lazy, it stops at the
    first hit; [word[position]] raises beyond the end of the word. *)
Fixpoint any_at (wd : word) (c : ascii) (ps : list nat) : result bool :=
  match ps with
  | [] => Ok false
  | position :: ps =>
      match wd !! position with
      | None => Raise IndexError
      | Some x => if bool_decide (x = c) then Ok true else any_at wd c ps
      end
  end.

(** The hard coded letter frequencies. *)
Definition CHAR_TO_FREQUENCY : gmap ascii float :=
  list_to_map
    [ ("a"%char, 0.0960%float); ("b"%char, 0.0249%float);
      ("c"%char, 0.0302%float); ("d"%char, 0.0368%float);
      ("e"%char, 0.1004%float); ("f"%char, 0.0167%float);
      ("g"%char, 0.0251%float); ("h"%char, 0.0268%float);
      ("i"%char, 0.0590%float); ("j"%char, 0.0046%float);
      ("k"%char, 0.0236%float); ("l"%char, 0.0509%float);
      ("m"%char, 0.0325%float); ("n"%char, 0.0468%float);
      ("o"%char, 0.0702%float); ("p"%char, 0.0328%float);
      ("q"%char, 0.0020%float); ("r"%char, 0.0635%float);
      ("s"%char, 0.0985%float); ("t"%char, 0.0499%float);
      ("u"%char, 0.0394%float); ("v"%char, 0.0108%float);
      ("w"%char, 0.0152%float); ("x"%char, 0.0044%float);
      ("y"%char, 0.0323%float); ("z"%char, 0.0068%float) ].

(** [sum(CHAR_TO_FREQUENCY[char] for char in cs)], continued from the
    partial sum [acc]: [sum] adds the floats one by one to its start value
    0, in the order in which the generator yields them (CPython up to 3.11;
    later versions carry a correction term along), and the lookup of a
    character that is not a key ends it with [KeyError]. *)
Fixpoint sum_frequencies (acc : float) (cs : list ascii) : result float :=
  match cs with
  | [] => Ok acc
  | c :: cs =>
      match CHAR_TO_FREQUENCY !! c with
      | None => Raise KeyError
      | Some f => sum_frequencies (acc + f)%float cs
      end
  end.

(** The comprehension of [update_constraints] that drops the constraints
    on one letter. *)
Definition without_char (c : ascii) (constraints : list Constraint)
  : list Constraint :=
  filter (λ constraint, char constraint ≠ c) constraints.

(** The body of the loop of [update_constraints] at index [i]. *)
Definition update_char (guess : Guess) (word_length : nat)
    (new_constraints : list Constraint) (i : nat) (ch : Char)
  : result (list Constraint) :=
  match colour ch with
  | Some GREEN =>
      Ok (without_char (letter ch) new_constraints
          ++ [mkConstraint (letter ch) {[ i ]} IN_SOME_POSITION])
  | Some YELLOW =>
      Ok ((new_constraints
           ++ [mkConstraint (letter ch)
                 (list_to_set (filter (λ j, j ≠ i) (seq 0 word_length)))
                 IN_SOME_POSITION])
          ++ [mkConstraint (letter ch) {[ i ]} NOT_IN_POSITIONS])
  | Some GREY =>
      let char_is_duplicate :=
        bool_decide (1 < Counter (letter <$> chars guess) (letter ch)) in
      if char_is_duplicate then
        Ok (new_constraints
            ++ [mkConstraint (letter ch) {[ i ]} NOT_IN_POSITIONS])
      else
        Ok (without_char (letter ch) new_constraints
            ++ [mkConstraint (letter ch) (list_to_set (seq 0 word_length))
                  NOT_IN_POSITIONS])
  | None => Raise UnexpectedColour
  end.

(** [for i, char in enumerate(guess.chars)], from index [i] on. *)
Fixpoint update_loop (guess : Guess) (word_length : nat) (i : nat)
    (todo : list Char) (new_constraints : list Constraint)
  : result (list Constraint) :=
  match todo with
  | [] => Ok new_constraints
  | ch :: todo =>
      new_constraints ← update_char guess word_length new_constraints i ch;
      update_loop guess word_length (S i) todo new_constraints
  end.

(** [update_constraints] on the values of the constraints; the version
    on the object store is [Store.update_constraints]. *)
Definition update_constraints (constraints : list Constraint) (guess : Guess)
    (word_length : nat) : result (list Constraint) :=
  update_loop guess word_length 0 (chars guess) constraints.

(** How a run of [simulate] ends. *)
Inductive outcome : Type :=
  | Returned (won : bool) (num_guesses : option nat) (final : Puzzle)
  | Raised (e : exn) (final : Puzzle)
  | OutOfFuel.

(** The two [return]s of [simulate]. *)
Definition report (puzzle : Puzzle) : outcome :=
  if won puzzle then Returned true (Some (length (guesses puzzle))) puzzle
  else Returned false None puzzle.

Section Selector.
Context `{SetOrder}.

(** [Constraint.is_satisfied]; its last branch, for a type that is neither
    of the two, has no counterpart. *)
Definition is_satisfied (self : Constraint) (wd : word) : result bool :=
  char_is_in_some_position ← any_at wd (char self) (iter (positions self));
  match type self with
  | IN_SOME_POSITION => Ok char_is_in_some_position
  | NOT_IN_POSITIONS => Ok (negb char_is_in_some_position)
  end.

(** [get_frequency_score]: the sum starts from the integer 0, which the
    first addition turns into the float 0. *)
Definition get_frequency_score (wd : word) : result float :=
  sum_frequencies 0%float (iter_set wd).

(** [all(constraint.is_satisfied(word) for constraint in constraints)] *)
Fixpoint all_satisfied (constraints : list Constraint) (wd : word)
  : result bool :=
  match constraints with
  | [] => Ok true
  | constraint :: constraints =>
      b ← is_satisfied constraint wd;
      if b : bool then all_satisfied constraints wd else Ok false
  end.

(** The list comprehension of [get_word_to_guess]. *)
Fixpoint filter_words (words : list word) (constraints : list Constraint)
  : result (list word) :=
  match words with
  | [] => Ok []
  | wd :: words =>
      keep ← all_satisfied constraints wd;
      rest ← filter_words words constraints;
      Ok (if keep : bool then wd :: rest else rest)
  end.

(** [max(words, key=get_frequency_score)] after its first item: a later
    item replaces the best one only when its key is greater, by the
    comparison [>] of floats. *)
Fixpoint max_from (best : word) (best_key : float) (words : list word)
  : result word :=
  match words with
  | [] => Ok best
  | wd :: words =>
      key ← get_frequency_score wd;
      if (best_key <? key)%float then max_from wd key words
      else max_from best best_key words
  end.

Definition max_by_frequency_score (words : list word) : result word :=
  match words with
  | [] => Raise EmptySequence
  | wd :: words =>
      key ← get_frequency_score wd;
      max_from wd key words
  end.

Definition get_word_to_guess (words : list word)
    (constraints : list Constraint) : result word :=
  words ← filter_words words constraints;
  max_by_frequency_score words.

(** [while puzzle.is_in_progress: ...]; one unit of fuel per round. *)
Fixpoint simulate_loop (fuel : nat) (words : list word) (puzzle : Puzzle)
    (constraints : list Constraint) : outcome :=
  if is_in_progress puzzle then
    match fuel with
    | 0 => OutOfFuel
    | S fuel =>
        match get_word_to_guess words constraints with
        | Raise e => Raised e puzzle
        | Ok word_to_guess =>
            match enter_word puzzle word_to_guess with
            | (Raise e, puzzle) => Raised e puzzle
            | (Ok guess, puzzle) =>
                if is_correct guess then report puzzle
                else
                  match update_constraints constraints guess WORD_LENGTH with
                  | Raise e => Raised e puzzle
                  | Ok constraints =>
                      simulate_loop fuel words puzzle constraints
                  end
            end
        end
    end
  else report puzzle.

(** [simulate(words)] once [random.choice(words)] has drawn [solution]. *)
Definition simulate (fuel : nat) (words : list word) (solution : word)
  : outcome :=
  simulate_loop fuel words (mkPuzzle solution []) [].

End Selector.

(** ** [update_constraints] on the object store

    Lists and [Constraint] instances are mutable objects reached through
    references.  The store keeps one table per class; a computation reads
    and writes the store and ends in a value, in a Python exception, or is
    stuck on a reference that is bound to no object. *)
Module Store.

Abbreviation loc := positive.

Record store : Type := mkStore {
  lists : gmap loc (list loc);
  instances : gmap loc Constraint
}.

Definition M (A : Type) : Type := store → option (result A * store).

Definition ret {A} (a : A) : M A := λ h, Some (Ok a, h).

Definition throw {A} (e : exn) : M A := λ h, Some (Raise e, h).

Definition bind {A B} (m : M A) (k : A → M B) : M B := λ h,
  match m h with
  | None => None
  | Some (Raise e, h) => Some (Raise e, h)
  | Some (Ok a, h) => k a h
  end.

Notation "x ←ₛ m ;; k" := (bind m (λ x, k))
  (at level 100, m at next level, right associativity).
Notation "m ;;ₛ k" := (bind m (λ _, k))
  (at level 100, right associativity).

(** A list display or comprehension result: a new list object. *)
Definition new_list (items : list loc) : M loc := λ h,
  let l := fresh (dom (lists h)) in
  Some (Ok l, mkStore (<[l := items]> (lists h)) (instances h)).

(** [Constraint(char=.., positions=.., type=..)]: a new instance. *)
Definition new_instance (c : Constraint) : M loc := λ h,
  let l := fresh (dom (instances h)) in
  Some (Ok l, mkStore (lists h) (<[l := c]> (instances h))).

Definition read_list (l : loc) : M (list loc) := λ h,
  match lists h !! l with
  | None => None
  | Some items => Some (Ok items, h)
  end.

Definition read_instance (l : loc) : M Constraint := λ h,
  match instances h !! l with
  | None => None
  | Some c => Some (Ok c, h)
  end.

(** [l.append(x)] mutates the list object [l]. *)
Definition append (l : loc) (x : loc) : M unit := λ h,
  match lists h !! l with
  | None => None
  | Some items =>
      Some (Ok (), mkStore (<[l := items ++ [x]]> (lists h)) (instances h))
  end.

(** [deepcopy] of the items of a list into the new list [y]; [memo]
    maps the instances already copied to their copies. *)
Fixpoint deepcopy_items (y : loc) (memo : gmap loc loc) (items : list loc)
  : M unit :=
  match items with
  | [] => ret ()
  | a :: items =>
      match memo !! a with
      | Some a' => append y a' ;;ₛ deepcopy_items y memo items
      | None =>
          c ←ₛ read_instance a ;;
          a' ←ₛ new_instance c ;;
          append y a' ;;ₛ
          deepcopy_items y (<[a := a']> memo) items
      end
  end.

(** [deepcopy(constraints)] *)
Definition deepcopy (constraints : loc) : M loc :=
  items ←ₛ read_list constraints ;;
  y ←ₛ new_list [] ;;
  deepcopy_items y ∅ items ;;ₛ
  ret y.

(** [[constraint for constraint in .. if constraint.char != c]] over the
    items of a list. *)
Fixpoint keep_other (c : ascii) (items : list loc) : M (list loc) :=
  match items with
  | [] => ret []
  | a :: items =>
      constraint ←ₛ read_instance a ;;
      rest ←ₛ keep_other c items ;;
      ret (if bool_decide (char constraint ≠ c) then a :: rest else rest)
  end.

Definition without_char (c : ascii) (new_constraints : loc) : M loc :=
  items ←ₛ read_list new_constraints ;;
  kept ←ₛ keep_other c items ;;
  new_list kept.

(** [new_constraints.append(Constraint(..))] *)
Definition append_new (new_constraints : loc) (c : Constraint) : M unit :=
  a ←ₛ new_instance c ;;
  append new_constraints a.

(** The body of the loop; it returns the list that the local variable
    [new_constraints] refers to afterwards. *)
Definition update_char (guess : Guess) (word_length : nat)
    (new_constraints : loc) (i : nat) (ch : Char) : M loc :=
  match colour ch with
  | Some GREEN =>
      new_constraints ←ₛ without_char (letter ch) new_constraints ;;
      append_new new_constraints
        (mkConstraint (letter ch) {[ i ]} IN_SOME_POSITION) ;;ₛ
      ret new_constraints
  | Some YELLOW =>
      append_new new_constraints
        (mkConstraint (letter ch)
           (list_to_set (filter (λ j, j ≠ i) (seq 0 word_length)))
           IN_SOME_POSITION) ;;ₛ
      append_new new_constraints
        (mkConstraint (letter ch) {[ i ]} NOT_IN_POSITIONS) ;;ₛ
      ret new_constraints
  | Some GREY =>
      let char_is_duplicate :=
        bool_decide (1 < Counter (letter <$> chars guess) (letter ch)) in
      if char_is_duplicate then
        append_new new_constraints
          (mkConstraint (letter ch) {[ i ]} NOT_IN_POSITIONS) ;;ₛ
        ret new_constraints
      else
        new_constraints ←ₛ without_char (letter ch) new_constraints ;;
        append_new new_constraints
          (mkConstraint (letter ch) (list_to_set (seq 0 word_length))
             NOT_IN_POSITIONS) ;;ₛ
        ret new_constraints
  | None => throw UnexpectedColour
  end.

Fixpoint update_loop (guess : Guess) (word_length : nat) (i : nat)
    (todo : list Char) (new_constraints : loc) : M loc :=
  match todo with
  | [] => ret new_constraints
  | ch :: todo =>
      new_constraints ←ₛ update_char guess word_length new_constraints i ch ;;
      update_loop guess word_length (S i) todo new_constraints
  end.

Definition update_constraints (constraints : loc) (guess : Guess)
    (word_length : nat) : M loc :=
  new_constraints ←ₛ deepcopy constraints ;;
  update_loop guess word_length 0 (chars guess) new_constraints.

(** The constraints that the list object [l] holds. *)
Definition contents (h : store) (l : loc) : option (list Constraint) :=
  items ← lists h !! l;
  mapM (λ a, instances h !! a) items.

(** Every object of [h] is in [h'] with the same state. *)
Definition unchanged (h h' : store) : Prop :=
  lists h ⊆ lists h' ∧ instances h ⊆ instances h'.

(** The references [items] lead to the constraints [cs], in this order. *)
Definition lead_to (h : store) (items : list loc) (cs : list Constraint)
  : Prop :=
  Forall2 (λ a c, instances h !! a = Some c) items cs.

(** The working list of the loop: the list object [cur] holds the
    constraints [cs], it is not an object of the store [h0] that the call
    started from, and the objects of [h0] are as they were. *)
Definition working (h0 : store) (cur : loc) (cs : list Constraint)
    (h : store) : Prop :=
  unchanged h0 h ∧ lists h0 !! cur = None
  ∧ ∃ items, lists h !! cur = Some items ∧ lead_to h items cs.

End Store.

(** ** Vocabulary of the statements *)

(** The working list of [update_constraints] after the first [k] rounds
    of its loop. *)
Definition constraints_upto (constraints : list Constraint) (guess : Guess)
    (word_length k : nat) : result (list Constraint) :=
  update_loop guess word_length 0 (take k (chars guess)) constraints.

(** The positions of a constraint are positions of the words of length
    [word_length]. *)
Definition below (word_length : nat) (c : Constraint) : Prop :=
  set_Forall (λ p, p < word_length) (positions c).

#[global] Instance below_dec word_length c : Decision (below word_length c).
Proof. unfold below. apply _. Defined.

(** A constraint on the words of length [word_length]: some position, and
    only positions of such a word. *)
Definition in_range (word_length : nat) (c : Constraint) : Prop :=
  positions c ≠ ∅ ∧ below word_length c.

#[global] Instance in_range_dec word_length c :
  Decision (in_range word_length c).
Proof. unfold in_range. apply _. Defined.

(** What a constraint says of a word. *)
Definition holds (c : Constraint) (wd : word) : Prop :=
  match type c with
  | IN_SOME_POSITION => ∃ p, p ∈ positions c ∧ wd !! p = Some (char c)
  | NOT_IN_POSITIONS => ∀ p, p ∈ positions c → wd !! p ≠ Some (char c)
  end.

(** The weight of a letter in the frequency table. *)
Definition weight (c : ascii) : result float :=
  match CHAR_TO_FREQUENCY !! c with
  | Some f => Ok f
  | None => Raise KeyError
  end.

(** The weights of the letters of a list, in its order, each as often as
    the list has it. *)
Fixpoint weights (letters : list ascii) : result (list float) :=
  match letters with
  | [] => Ok []
  | c :: letters =>
      f ← weight c;
      fs ← weights letters;
      Ok (f :: fs)
  end.

(** The sum of a list of floats, added one by one to 0 from left to
    right. *)
Definition float_sum (fs : list float) : float :=
  fold_left PrimFloat.add fs 0%float.

(** A float that is a zero, a positive number or plus infinity, and so
    not a NaN; first on the floats as the specification of IEEE 754
    arithmetic has them. *)
Definition SFnonneg (x : spec_float) : Prop :=
  match x with
  | S754_zero _ | S754_infinity false | S754_finite false _ _ => True
  | _ => False
  end.

Definition nonnegative (f : float) : Prop := SFnonneg (Prim2SF f).

#[global] Instance spec_float_eq_dec : EqDecision spec_float.
Proof. solve_decision. Defined.

#[global] Instance nonnegative_dec f : Decision (nonnegative f).
Proof.
  unfold nonnegative. destruct (Prim2SF f) as [?|[]| |[] ? ?]; simpl; apply _.
Defined.

(** A corpus word: [word_length] letters, all of them lower case letters
    of the alphabet. *)
Definition valid_word (word_length : nat) (wd : word) : Prop :=
  length wd = word_length ∧ Forall (λ c, c ∈ ALL_CHARS) wd.

#[global] Instance valid_word_dec word_length wd :
  Decision (valid_word word_length wd).
Proof. unfold valid_word. apply _. Defined.



(** ** Vocabulary of the further properties *)

(** The positions at which the guess and the solution both carry [c]. *)
Definition exact_matches (wd solution : word) (c : ascii) : nat :=
  count (λ p, p.1 = c ∧ p.2 = c) (zip wd solution).

(** The positions below [j] at which the guess carries [c] and the
    solution another letter. *)
Definition misplaced_before (wd solution : word) (c : ascii) (j : nat)
  : nat :=
  count (λ p, p.1 = c ∧ p.2 ≠ c) (take j (zip wd solution)).

(** The colour of Wordle for the letter [a] of the guess at position [j],
    where the solution has the letter [b]: green on a match, else yellow
    while the matches of [a] and its misplaced occurrences further left
    leave one of the solution's occurrences of [a] over, else grey. *)
Definition wordle_colour (wd solution : word) (j : nat) (a b : ascii)
  : Colour :=
  if decide (a = b) then GREEN
  else if decide (exact_matches wd solution a + misplaced_before wd solution a j
                  < Counter solution a)
       then YELLOW
       else GREY.


(** A letter of the alphabet, in either case. *)
Definition is_letter (c : ascii) : Prop :=
  let n := nat_of_ascii c in (65 ≤ n ∧ n ≤ 90) ∨ (97 ≤ n ∧ n ≤ 122).

#[global] Instance is_letter_dec c : Decision (is_letter c).
Proof. unfold is_letter. apply _. Defined.


#[global] Instance result_eq_dec {A} `{EqDecision A} : EqDecision (result A).
Proof. solve_decision. Defined.


(** ** Printing and batch runs *)

(** The escape character, [\033]. *)
Definition ESC : ascii := ascii_of_nat 27.

(** [Char.get_print_str]; it raises the [ValueError] for an unexpected
    colour, as [update_constraints] does. *)
Definition get_print_str (self : Char) (use_colours : bool) : result word :=
  if negb use_colours then Ok [letter self]
  else
    colour_start ←
      match colour self with
      | Some GREEN => Ok (ESC :: w "[92m")
      | Some YELLOW => Ok (ESC :: w "[93m")
      | Some GREY => Ok (ESC :: w "[97m")
      | None => Raise UnexpectedColour
      end;
    let colour_end := ESC :: w "[00m" in
    Ok (colour_start ++ [letter self] ++ colour_end).

(** [[""].join(char.get_print_str() for char in chars)] *)
Fixpoint join_print_strs (chars : list Char) : result word :=
  match chars with
  | [] => Ok []
  | char :: chars =>
      s ← get_print_str char true;
      rest ← join_print_strs chars;
      Ok (s ++ rest)
  end.

(** [Guess.print]: the line that it prints. *)
Definition guess_print (self : Guess) : result word :=
  join_print_strs (chars self).

(** The exceptions of [run_simulations]: its own two and those that
    [simulate] raises. *)
Inductive run_exn : Type :=
  | ZeroDivisionError       (* 100 * num_won / num_simulations        *)
  | StatisticsError         (* statistics.mean of an empty list       *)
  | FromSimulate (e : exn).

(** How [run_simulations] ends: it prints the summary of [num_won] and
    [guess_nums], or raises. *)
Inductive run_outcome : Type :=
  | Summarised (num_won : nat) (guess_nums : list nat)
  | RunRaised (e : run_exn)
  | RunOutOfFuel.

Section Batch.
Context `{SetOrder}.

(** [for i in range(num_simulations)], with the solutions that the
    successive calls of [simulate] draw; the fuel is that of each call. *)
Fixpoint simulations_loop (fuel : nat) (words : list word)
    (draws : list word) (num_won : nat) (guess_nums : list nat)
  : run_outcome :=
  match draws with
  | [] => Summarised num_won guess_nums
  | solution :: draws =>
      match simulate fuel words solution with
      | OutOfFuel => RunOutOfFuel
      | Raised e _ => RunRaised (FromSimulate e)
      | Returned won num_guesses _ =>
          let num_won := if won then num_won + 1 else num_won in
          let guess_nums :=
            match num_guesses with
            | Some n => guess_nums ++ [n]
            | None => guess_nums
            end in
          simulations_loop fuel words draws num_won guess_nums
      end
  end.

(** [run_simulations(num_simulations)] for [num_simulations = length draws]:
    the percentage divides by the number of simulations, the mean is taken
    of the numbers of guesses of the games won. *)
Definition run_simulations (fuel : nat) (words : list word)
    (draws : list word) : run_outcome :=
  match simulations_loop fuel words draws 0 [] with
  | Summarised num_won guess_nums =>
      if bool_decide (length draws = 0) then RunRaised ZeroDivisionError
      else if bool_decide (guess_nums = []) then RunRaised StatisticsError
      else Summarised num_won guess_nums
  | stopped => stopped
  end.

End Batch.


(** A run that returned a win. *)
Definition reports_win (o : outcome) : Prop :=
  match o with
  | Returned true _ _ => True
  | _ => False
  end.

#[global] Instance reports_win_dec o : Decision (reports_win o).
Proof. destruct o as [[] ? ?| |]; simpl; apply _. Defined.

(** * Proofs *)

(** ** The source's tests *)

(** [str.lower] on characters of Latin-1: U+00C0 and U+00DE have a lower
    case, the multiplication sign U+00D7 has none. *)
Example lower_latin_1 :
  lower [ascii_of_nat 192; "B"; ascii_of_nat 215; ascii_of_nat 222; "z"]%char
  = [ascii_of_nat 224; "b"; ascii_of_nat 215; ascii_of_nat 254; "z"]%char.
Proof. vm_compute. reflexivity. Qed.

Example test_create_guess_from_word_green :
  colours (create_from_word (w "abbbb") (w "acccc"))
  = [Some GREEN; Some GREY; Some GREY; Some GREY; Some GREY].
Proof. vm_compute. reflexivity. Qed.

Example test_create_guess_from_word_yellow :
  colours (create_from_word (w "abbbb") (w "cccac"))
  = [Some YELLOW; Some GREY; Some GREY; Some GREY; Some GREY].
Proof. vm_compute. reflexivity. Qed.

Example test_create_guess_from_word_duplicate_chars :
  colours (create_from_word (w "boots") (w "piano"))
  = [Some GREY; Some YELLOW; Some GREY; Some GREY; Some GREY].
Proof. vm_compute. reflexivity. Qed.

Example create_from_word_later_later :
  is_correct (create_from_word (w "later") (w "later")) = true.
Proof. vm_compute. reflexivity. Qed.

(** ** Counting in lists *)

Section Counting.
Context {A : Type} (P : A → Prop) `{!∀ x, Decision (P x)}.

Lemma count_nil : count P [] = 0.
Proof. reflexivity. Qed.

Lemma count_cons x l :
  count P (x :: l) = (if decide (P x) then 1 else 0) + count P l.
Proof. unfold count. rewrite filter_cons. by destruct (decide (P x)). Qed.

Lemma count_app l k : count P (l ++ k) = count P l + count P k.
Proof. unfold count. by rewrite filter_app, length_app. Qed.

(** Overwriting one cell moves the count by the difference between the
    new and the old inhabitant. *)
Lemma count_insert l i x y :
  l !! i = Some y →
  count P (<[i := x]> l) + (if decide (P y) then 1 else 0)
  = count P l + (if decide (P x) then 1 else 0).
Proof.
  intros Hi.
  rewrite insert_take_drop by (by eapply lookup_lt_Some).
  rewrite <- (take_drop_middle l i y Hi) at 3.
  rewrite !count_app, !count_cons. lia.
Qed.

Lemma count_pos l : 0 < count P l → ∃ i x, l !! i = Some x ∧ P x.
Proof.
  induction l as [|x l IH]; [rewrite count_nil; lia|].
  rewrite count_cons. destruct (decide (P x)) as [HP|_].
  - intros _. by exists 0, x.
  - intros [i [y [? ?]]]%IH. by exists (S i), y.
Qed.

Lemma count_lookup_two l i j x y :
  i ≠ j → l !! i = Some x → l !! j = Some y → P x → P y → 1 < count P l.
Proof.
  revert i j. induction l as [|z l IH]; intros i j Hne Hi Hj Hx Hy;
    [by rewrite lookup_nil in Hi|].
  rewrite count_cons. destruct i as [|i], j as [|j]; simplify_eq/=.
  - rewrite decide_True by done.
    assert (0 < count P l); [|lia].
    apply list_elem_of_lookup_2 in Hj. unfold count.
    assert (y ∈ filter P l) as Hin by (by apply list_elem_of_filter).
    destruct (filter P l); [by apply elem_of_nil in Hin|simpl; lia].
  - rewrite decide_True by done.
    assert (0 < count P l); [|lia].
    apply list_elem_of_lookup_2 in Hi. unfold count.
    assert (x ∈ filter P l) as Hin by (by apply list_elem_of_filter).
    destruct (filter P l); [by apply elem_of_nil in Hin|simpl; lia].
  - assert (1 < count P l) by (eapply (IH i j); eauto). lia.
Qed.

End Counting.

Lemma count_pointwise {A B} (P : A → Prop) (Q : B → Prop)
    `{!∀ x, Decision (P x)} `{!∀ y, Decision (Q y)}
    (l : list A) (k : list B) :
  length l = length k →
  (∀ i x y, l !! i = Some x → k !! i = Some y → (P x ↔ Q y)) →
  count P l = count Q k.
Proof.
  revert k. induction l as [|x l IH]; intros [|y k] Hlen Hpw;
    simplify_eq/=; [done|].
  rewrite !count_cons. rewrite (IH k); [|done|].
  - pose proof (Hpw 0 x y eq_refl eq_refl).
    destruct (decide (P x)), (decide (Q y)); tauto || lia.
  - intros i x' y' ??. by apply (Hpw (S i)).
Qed.

Lemma Counter_pos (s : word) (c : ascii) : 0 < Counter s c ↔ c ∈ s.
Proof.
  unfold Counter. split.
  - intros (i & x & Hi & ->)%count_pos. by eapply list_elem_of_lookup_2.
  - induction 1 as [|y l ? IH]; rewrite count_cons.
    + rewrite decide_True by done. lia.
    + lia.
Qed.

(** ** The evaluator *)

Section Evaluator.
Variable solution : word.

Lemma pass2_upto_S cs k :
  pass2_upto solution cs (S k)
  = resolve solution (pass2_upto solution cs k) k.
Proof. unfold pass2_upto. by rewrite seq_S, foldl_app. Qed.

(** What the second loop has done to each cell after [k] rounds: the
    colours of the first loop stay, the cells below [k] that it left open
    are yellow or grey, and a grey one has a namesake in the guess unless
    the solution lacks the letter. *)
Lemma pass2_upto_spec cs0 k :
  k ≤ length cs0 →
  length (pass2_upto solution cs0 k) = length cs0 ∧
  ∀ j ch0, cs0 !! j = Some ch0 →
    ∃ ch, pass2_upto solution cs0 k !! j = Some ch ∧
      letter ch = letter ch0 ∧
      match colour ch0 with
      | Some x => colour ch = Some x
      | None =>
          if decide (j < k) then
            (colour ch = Some YELLOW ∧ 0 < Counter solution (letter ch0))
            ∨ (colour ch = Some GREY ∧
               (Counter solution (letter ch0) = 0
                ∨ ∃ j' ch', j' ≠ j ∧ cs0 !! j' = Some ch'
                            ∧ letter ch' = letter ch0))
          else colour ch = None
      end.
Proof.
  induction k as [|k IH]; intros Hk.
  { split; [done|]. intros j ch0 Hj. exists ch0.
    repeat split; [done|]. destruct (colour ch0); [done|].
    rewrite decide_False by lia. done. }
  destruct IH as [Hlen IH]; [lia|].
  rewrite pass2_upto_S. set (cs := pass2_upto solution cs0 k) in *.
  destruct (lookup_lt_is_Some_2 cs0 k) as [chk0 Hk0]; [lia|].
  destruct (IH k chk0 Hk0) as (chk & Hck & Hlk & Hcol).
  unfold resolve. rewrite Hck.
  destruct (colour chk) as [x|] eqn:Hx.
  { (* nothing to do at [k] *)
    split; [done|]. intros j ch0 Hj.
    destruct (IH j ch0 Hj) as (ch & ? & ? & Hc). exists ch.
    repeat split; [done..|].
    destruct (colour ch0) eqn:Hc0; [done|].
    destruct (decide (j = k)) as [->|Hne].
    - rewrite Hk0 in Hj. injection Hj as <-. rewrite Hc0 in Hcol.
      rewrite decide_False in Hcol by lia. congruence.
    - destruct (decide (j < k)), (decide (j < S k)); done || lia. }
  split; [by rewrite length_insert|]. intros j ch0 Hj.
  destruct (decide (j = k)) as [->|Hne].
  - rewrite Hk0 in Hj. injection Hj as <-.
    eexists. split; [apply list_lookup_insert_eq; lia|].
    split; [done|]. simpl.
    destruct (colour chk0) eqn:Hc0; [congruence|].
    rewrite decide_True by lia.
    case_bool_decide as HRN; [left; split; [done|]; rewrite <- Hlk; lia|].
    right. split; [done|].
    destruct (decide (Counter solution (letter chk0) = 0)) as [|HN];
      [by left|right].
    destruct (count_pos (recognised (letter chk)) cs)
      as (i & x & Hi & Hlx & Hcx); [rewrite Hlk in *; lia|].
    assert (i ≠ k) as Hik.
    { intros ->. rewrite Hck in Hi. injection Hi as <-.
      destruct Hcx; congruence. }
    destruct (lookup_lt_is_Some_2 cs0 i) as [ch' Hi0].
    { rewrite <- Hlen. by eapply lookup_lt_Some. }
    exists i, ch'. repeat split; [done..|].
    destruct (IH i ch' Hi0) as (x' & Hx' & <- & _).
    rewrite Hi in Hx'. injection Hx' as <-. congruence.
  - destruct (IH j ch0 Hj) as (ch & ? & ? & Hc). exists ch.
    split; [by rewrite list_lookup_insert_ne|]. split; [done|].
    destruct (colour ch0); [done|].
    destruct (decide (j < k)), (decide (j < S k)); done || lia.
Qed.

Lemma pass1_length wd :
  length (pass1 wd solution) = length wd `min` length solution.
Proof. unfold pass1. by rewrite length_fmap, length_zip. Qed.

Lemma pass1_lookup wd j a b :
  wd !! j = Some a → solution !! j = Some b →
  pass1 wd solution !! j = Some (mkChar a (first_colour solution a b)).
Proof.
  intros Ha Hb. unfold pass1. rewrite list_lookup_fmap.
  by rewrite (proj2 (lookup_zip_Some wd solution j a b)).
Qed.

Lemma create_from_word_length wd :
  length (chars (create_from_word wd solution))
  = length wd `min` length solution.
Proof.
  simpl. unfold pass2.
  destruct (pass2_upto_spec (pass1 wd solution) (length (pass1 wd solution)))
    as [-> _]; [done|]. apply pass1_length.
Qed.

(** The colour of every position of an evaluated guess. *)
Lemma create_from_word_lookup wd j a b :
  wd !! j = Some a → solution !! j = Some b →
  ∃ col, chars (create_from_word wd solution) !! j
         = Some (mkChar a (Some col)) ∧
    match col with
    | GREEN => a = b
    | YELLOW => a ≠ b ∧ a ∈ solution
    | GREY => a ≠ b ∧ (a ∉ solution ∨ ∃ j', j' ≠ j ∧ wd !! j' = Some a)
    end.
Proof.
  intros Ha Hb. simpl. unfold pass2.
  destruct (pass2_upto_spec (pass1 wd solution) (length (pass1 wd solution)))
    as [_ Hspec]; [done|].
  destruct (Hspec j _ (pass1_lookup wd j a b Ha Hb)) as (ch & Hch & Hl & Hc).
  rewrite Hch. destruct ch as [l c]. simpl in *. subst l.
  unfold first_colour in Hc.
  case_bool_decide as Hab.
  { exists GREEN. by simplify_eq. }
  case_bool_decide as Hin.
  { exists GREY. simplify_eq. eauto. }
  rewrite decide_True in Hc.
  2:{ rewrite pass1_length. apply lookup_lt_Some in Ha, Hb. lia. }
  destruct Hc as [[-> HN]|[-> Hdup]].
  - exists YELLOW. repeat split; [done|]. by apply Counter_pos.
  - exists GREY. repeat split; [done|]. right.
    destruct Hdup as [HN|(j' & ch' & Hne & Hj' & Hl')].
    { apply Counter_pos in Hin. lia. }
    exists j'. split; [done|].
    unfold pass1 in Hj'. rewrite list_lookup_fmap in Hj'.
    destruct (zip wd solution !! j') as [[a' b']|] eqn:Hz; simplify_eq/=.
    by apply lookup_zip_Some in Hz as [-> _].
Qed.

(** The first loop recognises a letter at most as often as the solution
    has it: every green cell sits on an occurrence of its own. *)
Lemma pass1_recognised_le sol0 wd c :
  count (recognised c)
    ((λ p, mkChar p.1 (first_colour sol0 p.1 p.2)) <$> zip wd solution)
  ≤ Counter solution c.
Proof.
  unfold Counter. clear. revert wd.
  induction solution as [|b sol IH]; intros [|a wd]; simpl;
    rewrite ?count_nil, ?count_cons; try lia.
  specialize (IH wd).
  change (list_fmap _ _ ?f ?l) with (f <$> l).
  destruct (decide (recognised c _)) as [[Hl Hc]|_]; [|lia].
  simpl in Hl, Hc. unfold first_colour in Hc. subst a.
  case_bool_decide as Hab; [|case_bool_decide; destruct Hc; congruence].
  rewrite decide_True by done. lia.
Qed.

(** The second loop keeps the cap. *)
Lemma resolve_recognised_le cs i c :
  count (recognised c) cs ≤ Counter solution c →
  count (recognised c) (resolve solution cs i) ≤ Counter solution c.
Proof.
  intros Hle. unfold resolve.
  destruct (cs !! i) as [ch|] eqn:Hi; [|done].
  destruct (colour ch) eqn:Hc; [done|].
  pose proof (count_insert (recognised c) cs i
    (mkChar (letter ch)
       (Some (if bool_decide (count (recognised (letter ch)) cs
                              < Counter solution (letter ch))
              then YELLOW else GREY))) ch Hi) as Hins.
  rewrite (decide_False (P := recognised c ch)) in Hins
    by (intros [_ [?|?]]; congruence).
  case_bool_decide as HRN.
  - destruct (decide (recognised c _)) as [[Hl _]|_] in Hins; [|lia].
    simpl in Hl. subst c. lia.
  - rewrite decide_False in Hins by (intros [_ [?|?]]; simpl in *; congruence).
    lia.
Qed.

Lemma pass2_upto_recognised_le cs k c :
  count (recognised c) cs ≤ Counter solution c →
  count (recognised c) (pass2_upto solution cs k) ≤ Counter solution c.
Proof.
  intros Hle. induction k as [|k IH]; [done|].
  rewrite pass2_upto_S. by apply resolve_recognised_le.
Qed.

Lemma create_from_word_recognised_le wd c :
  count (recognised c) (chars (create_from_word wd solution))
  ≤ Counter solution c.
Proof. apply pass2_upto_recognised_le, pass1_recognised_le. Qed.

End Evaluator.

(** C1. For a guess word and a solution of equal length and every letter
    [c], the evaluated guess has at most as many green or yellow cells
    carrying [c] as the solution has occurrences of [c]. *)
Theorem duplicate_letter_cap (wd solution : word) (c : ascii) :
  length wd = length solution →
  count (λ ch, letter ch = c
               ∧ (colour ch = Some GREEN ∨ colour ch = Some YELLOW))
    (chars (create_from_word wd solution))
  ≤ count (λ x, x = c) solution.
Proof.
  intros _. unfold create_from_word, pass2. simpl.
  apply pass2_upto_recognised_le, pass1_recognised_le.
Qed.

Lemma duplicate_letter_cap_witness :
  length (w "boots") = length (w "piano") ∧
  count (λ ch, letter ch = "o"%char
               ∧ (colour ch = Some GREEN ∨ colour ch = Some YELLOW))
    (chars (create_from_word (w "boots") (w "piano")))
  ≤ count (λ x, x = "o"%char) (w "piano").
Proof.
  split; [reflexivity|].
  apply (duplicate_letter_cap (w "boots") (w "piano") "o"%char). reflexivity.
Defined.

(** C2. For a guess word and a solution of equal length, the green cells
    of the evaluated guess are exactly the positions where the two words
    carry the same letter, and there are as many of the ones as of the
    others. *)
Theorem green_iff_exact_match (wd solution : word) :
  length wd = length solution →
  count (λ ch, colour ch = Some GREEN) (chars (create_from_word wd solution))
  = count (λ p, p.1 = p.2) (zip wd solution)
  ∧ ∀ i,
      (∃ ch, chars (create_from_word wd solution) !! i = Some ch
             ∧ colour ch = Some GREEN)
      ↔ (∃ c, wd !! i = Some c ∧ solution !! i = Some c).
Proof.
  intros Hlen.
  assert (∀ i x a b,
    chars (create_from_word wd solution) !! i = Some x →
    wd !! i = Some a → solution !! i = Some b →
    colour x = Some GREEN ↔ a = b) as Hpw.
  { intros i x a b Hx Ha Hb.
    destruct (create_from_word_lookup solution wd i a b Ha Hb)
      as (col & Hcol & Hcase).
    rewrite Hx in Hcol. injection Hcol as ->. simpl.
    destruct col; intuition congruence. }
  split.
  - apply count_pointwise.
    + rewrite create_from_word_length, length_zip. done.
    + intros i x [a b] Hx [Ha Hb]%lookup_zip_Some. simpl. by eapply Hpw.
  - intros i. split.
    + intros (ch & Hch & Hg).
      assert (i < length wd `min` length solution) as Hi.
      { rewrite <- create_from_word_length. by eapply lookup_lt_Some. }
      destruct (lookup_lt_is_Some_2 wd i) as [a Ha]; [lia|].
      destruct (lookup_lt_is_Some_2 solution i) as [b Hb]; [lia|].
      exists a. split; [done|]. rewrite Hb. f_equal. symmetry.
      by eapply Hpw.
    + intros (c & Ha & Hb).
      destruct (create_from_word_lookup solution wd i c c Ha Hb)
        as (col & Hcol & Hcase).
      eexists. split; [done|]. simpl. destruct col; intuition congruence.
Qed.

Lemma green_iff_exact_match_witness :
  length (w "abbbb") = length (w "acccc") ∧
  count (λ ch, colour ch = Some GREEN)
    (chars (create_from_word (w "abbbb") (w "acccc")))
  = count (λ p, p.1 = p.2) (zip (w "abbbb") (w "acccc")).
Proof.
  split; [reflexivity|].
  apply (green_iff_exact_match (w "abbbb") (w "acccc")). reflexivity.
Defined.

(** ** The constraint updater *)

Lemma update_loop_app guess L i l1 l2 cs :
  update_loop guess L i (l1 ++ l2) cs
  = (mid ← update_loop guess L i l1 cs;
     update_loop guess L (i + length l1) l2 mid).
Proof.
  revert i cs. induction l1 as [|ch l1 IH]; intros i cs; simpl.
  { by rewrite Nat.add_0_r. }
  destruct (update_char guess L cs i ch) as [cs'|e]; simpl; [|done].
  rewrite IH. by replace (S i + length l1) with (i + S (length l1)) by lia.
Qed.

Lemma constraints_upto_S cs guess L k ch :
  chars guess !! k = Some ch →
  constraints_upto cs guess L (S k)
  = (mid ← constraints_upto cs guess L k; update_char guess L mid k ch).
Proof.
  intros Hk. unfold constraints_upto.
  rewrite (take_S_r _ _ _ Hk), update_loop_app.
  destruct (update_loop guess L 0 (take k (chars guess)) cs); simpl; [|done].
  rewrite length_take_le by (apply lookup_lt_Some in Hk; lia).
  by destruct (update_char _ _ _ _ _).
Qed.

Lemma constraints_upto_all cs guess L :
  constraints_upto cs guess L (length (chars guess))
  = update_constraints cs guess L.
Proof. unfold constraints_upto. by rewrite firstn_all. Qed.

(** C3. At a position [i] that carries a grey letter [c], the updater
    turns its working list [before] into [before] plus the one constraint
    that [c] is not at [i] when [c] occurs more than once among the letters
    of the guess, and, when [c] occurs there exactly once, into [before]
    without its constraints on [c] plus the constraint that [c] is at none
    of the positions [0..word_length-1]; no third case exists. *)
Theorem grey_letter_update (constraints : list Constraint) (guess : Guess)
    (word_length i : nat) (c : ascii) (before : list Constraint) :
  chars guess !! i = Some (mkChar c (Some GREY)) →
  constraints_upto constraints guess word_length i = Ok before →
  (1 < Counter (letter <$> chars guess) c →
     constraints_upto constraints guess word_length (S i)
     = Ok (before ++ [mkConstraint c {[ i ]} NOT_IN_POSITIONS]))
  ∧ (Counter (letter <$> chars guess) c = 1 →
     constraints_upto constraints guess word_length (S i)
     = Ok (filter (λ x, char x ≠ c) before
           ++ [mkConstraint c (list_to_set (seq 0 word_length))
                 NOT_IN_POSITIONS]))
  ∧ 1 ≤ Counter (letter <$> chars guess) c.
Proof.
  intros Hi Hbefore.
  rewrite (constraints_upto_S _ _ _ _ _ Hi), Hbefore. simpl.
  unfold update_char. simpl. repeat split.
  - intros Hdup. by rewrite bool_decide_true.
  - intros Hone. by rewrite bool_decide_false by lia.
  - apply Counter_pos. apply list_elem_of_fmap. exists (mkChar c (Some GREY)).
    split; [done|]. by eapply list_elem_of_lookup_2.
Qed.

Lemma grey_letter_update_witness :
  ∃ before,
    chars (create_from_word (w "boots") (w "piano")) !! 2
    = Some (mkChar "o" (Some GREY))
    ∧ constraints_upto [] (create_from_word (w "boots") (w "piano")) 5 2
      = Ok before
    ∧ 1 < Counter (letter <$> chars (create_from_word (w "boots") (w "piano")))
            "o"
    ∧ constraints_upto [] (create_from_word (w "boots") (w "piano")) 5 3
      = Ok (before ++ [mkConstraint "o" {[ 2 ]} NOT_IN_POSITIONS]).
Proof.
  eexists. split; [reflexivity|]. split; [vm_compute; reflexivity|].
  split; [vm_compute; lia|].
  apply (grey_letter_update [] (create_from_word (w "boots") (w "piano"))
           5 2 "o").
  - reflexivity.
  - vm_compute; reflexivity.
  - vm_compute; lia.
Defined.

(** ** Entering a word *)

(** C4 as the spec has it fails: the evaluator accepts words of different
    lengths and colours their common prefix, and [enter_word] evaluates a
    word of the configured length against a solution of another length. *)
Lemma evaluation_accepts_length_mismatch :
  length (w "ab") ≠ length (w "abc")
  ∧ create_from_word (w "ab") (w "abc")
    = mkGuess [mkChar "a" (Some GREEN); mkChar "b" (Some GREEN)]
  ∧ length (w "abcde") ≠ length (w "abc")
  ∧ enter_word (mkPuzzle (w "abc") []) (w "abcde")
    = (Ok (mkGuess [mkChar "a" (Some GREEN); mkChar "b" (Some GREEN);
                    mkChar "c" (Some GREEN)]),
       mkPuzzle (w "abc")
         [mkGuess [mkChar "a" (Some GREEN); mkChar "b" (Some GREEN);
                   mkChar "c" (Some GREEN)]]).
Proof. repeat split; (vm_compute; congruence) || (vm_compute; reflexivity). Qed.

(** C4, amended. The length check is the one of [enter_word], on the
    entered word against [WORD_LENGTH]: a word of another length makes the
    call raise and leaves the puzzle as it was, with the word length error
    when the guess budget is not used up.  The evaluator itself raises
    nothing and colours as many positions as the shorter of its two words
    has. *)
Theorem enter_word_checks_length (self : Puzzle) (wd : word) :
  length wd ≠ WORD_LENGTH →
  (∃ e, enter_word self wd = (Raise e, self))
  ∧ (length (guesses self) < MAX_NUM_GUESSES →
     enter_word self wd = (Raise WrongWordLength, self))
  ∧ length (chars (create_from_word wd (solution self)))
    = length wd `min` length (solution self).
Proof.
  intros Hlen. unfold enter_word. repeat split.
  - case_bool_decide; [by eexists|]. rewrite bool_decide_true by done.
    by eexists.
  - intros Hlt. rewrite bool_decide_false by lia.
    by rewrite bool_decide_true by done.
  - apply create_from_word_length.
Qed.

Lemma enter_word_checks_length_witness :
  length (w "late") ≠ WORD_LENGTH
  ∧ enter_word (mkPuzzle (w "piano") []) (w "late")
    = (Raise WrongWordLength, mkPuzzle (w "piano") []).
Proof.
  split; [vm_compute; congruence|].
  apply (enter_word_checks_length (mkPuzzle (w "piano") []) (w "late")).
  - vm_compute; congruence.
  - vm_compute; lia.
Defined.

(** C9. Once the history holds [MAX_NUM_GUESSES] guesses (or more),
    [enter_word] raises for every word and the puzzle, hence its history,
    is as before the call. *)
Theorem enter_word_after_max_guesses (self : Puzzle) (wd : word) :
  MAX_NUM_GUESSES ≤ length (guesses self) →
  enter_word self wd = (Raise ExceededMaxGuesses, self).
Proof. intros Hfull. unfold enter_word. by rewrite bool_decide_true. Qed.

Lemma enter_word_after_max_guesses_witness :
  MAX_NUM_GUESSES
  ≤ length (guesses
              (mkPuzzle (w "piano")
                 (replicate 6 (create_from_word (w "boots") (w "piano")))))
  ∧ enter_word
      (mkPuzzle (w "piano")
         (replicate 6 (create_from_word (w "boots") (w "piano"))))
      (w "later")
    = (Raise ExceededMaxGuesses,
       mkPuzzle (w "piano")
         (replicate 6 (create_from_word (w "boots") (w "piano")))).
Proof.
  split; [vm_compute; lia|].
  apply (enter_word_after_max_guesses
           (mkPuzzle (w "piano")
              (replicate 6 (create_from_word (w "boots") (w "piano"))))
           (w "later")).
  vm_compute; lia.
Defined.

(** ** Satisfaction of a constraint *)

Lemma any_at_true wd c ps :
  any_at wd c ps = Ok true → ∃ p, p ∈ ps ∧ wd !! p = Some c.
Proof.
  induction ps as [|p ps IH]; simpl; [done|].
  destruct (wd !! p) as [x|] eqn:Hp; [|done].
  case_bool_decide as Hx.
  - intros _. exists p. subst x. split; [left|done].
  - intros (q & ? & ?)%IH. exists q. split; [by right|done].
Qed.

Lemma any_at_false wd c ps :
  any_at wd c ps = Ok false → ∀ p, p ∈ ps → wd !! p ≠ Some c.
Proof.
  induction ps as [|p ps IH]; simpl; [by intros _ q ?%elem_of_nil|].
  destruct (wd !! p) as [x|] eqn:Hp; [|done].
  case_bool_decide as Hx; [done|].
  intros Hrest q [->|Hq]%elem_of_cons; [congruence|by apply IH].
Qed.

Lemma any_at_in_range wd c ps :
  Forall (λ p, p < length wd) ps → ∃ b, any_at wd c ps = Ok b.
Proof.
  induction 1 as [|p ps Hp _ IH]; simpl; [by eexists|].
  destruct (lookup_lt_is_Some_2 wd p Hp) as [x ->].
  case_bool_decide; [by eexists|done].
Qed.

Section Satisfaction.
Context `{SetOrder}.

Lemma elem_of_iter `{Countable A} (X : gset A) x : x ∈ iter X ↔ x ∈ X.
Proof. by rewrite (iter_perm X), elem_of_elements. Qed.

(** Whenever [is_satisfied] returns, it returns whether the constraint
    holds, in whatever order the positions are visited. *)
Lemma is_satisfied_holds c wd b :
  is_satisfied c wd = Ok b → (b = true ↔ holds c wd).
Proof.
  unfold is_satisfied, holds.
  destruct (any_at wd (char c) (iter (positions c))) as [a|] eqn:Hany;
    simpl; [|done].
  destruct a.
  - apply any_at_true in Hany as (p & Hp%elem_of_iter & Hwp).
    destruct (type c); intros [= <-]; simpl; split; try done.
    + intros _. by exists p.
    + intros Hall. by destruct (Hall p).
  - pose proof (any_at_false _ _ _ Hany) as Hnone.
    destruct (type c); intros [= <-]; simpl; split; try done.
    + intros (p & Hp%elem_of_iter & Hwp). by destruct (Hnone p).
    + intros _ p Hp%elem_of_iter. by apply Hnone.
Qed.

(** No position of an in-range constraint is beyond the end of a word of
    that length. *)
Lemma is_satisfied_in_range L c wd :
  below L c → length wd = L →
  ∃ b, is_satisfied c wd = Ok b.
Proof.
  intros Hr Hlen. unfold is_satisfied.
  destruct (any_at_in_range wd (char c) (iter (positions c))) as [a ->].
  { apply Forall_forall. intros p Hp%elem_of_iter. rewrite Hlen. by apply Hr. }
  simpl. destruct (type c); by eexists.
Qed.

End Satisfaction.

(** ** Positions of the constraints that the updater adds *)

Lemma in_range_singleton L c i t :
  i < L → in_range L (mkConstraint c {[ i ]} t).
Proof.
  intros Hi. split; unfold below, set_Forall; simpl.
  - apply (non_empty_inhabited_L i), elem_of_singleton_2. done.
  - by intros p ->%elem_of_singleton.
Qed.

Lemma in_range_all L c t :
  0 < L → in_range L (mkConstraint c (list_to_set (seq 0 L)) t).
Proof.
  intros HL. split; unfold below, set_Forall; simpl.
  - apply (non_empty_inhabited_L 0), elem_of_list_to_set, elem_of_seq. lia.
  - intros p [_ ?]%elem_of_list_to_set%elem_of_seq. lia.
Qed.

Lemma in_range_others L c i t :
  2 ≤ L →
  in_range L
    (mkConstraint c (list_to_set (filter (λ j, j ≠ i) (seq 0 L))) t).
Proof.
  intros HL. split; unfold below, set_Forall; simpl.
  - apply (non_empty_inhabited_L (if decide (i = 0) then 1 else 0)).
    apply elem_of_list_to_set, list_elem_of_filter. rewrite elem_of_seq.
    destruct (decide (i = 0)); lia.
  - intros p [_ [_ ?]%elem_of_seq]%elem_of_list_to_set%list_elem_of_filter.
    lia.
Qed.

Lemma without_char_Forall (P : Constraint → Prop) c cs :
  Forall P cs → Forall P (without_char c cs).
Proof.
  rewrite !Forall_forall. intros Hcs x [_ Hx]%list_elem_of_filter. by apply Hcs.
Qed.

Lemma update_char_in_range guess L cs i ch :
  i < L → (2 ≤ L ∨ colour ch ≠ Some YELLOW) →
  Forall (in_range L) cs →
  match update_char guess L cs i ch with
  | Ok cs' => Forall (in_range L) cs'
  | Raise e => e = UnexpectedColour ∧ colour ch = None
  end.
Proof.
  intros Hi Hy Hcs. unfold update_char.
  destruct (colour ch) as [[| |]|]; [| | |done].
  - case_bool_decide; apply Forall_app; split;
      auto using without_char_Forall.
    + apply Forall_singleton, in_range_singleton; lia.
    + apply Forall_singleton, in_range_all; lia.
  - destruct Hy as [HL|?]; [|done].
    repeat (apply Forall_app; split); [done|..].
    + by apply Forall_singleton, in_range_others.
    + apply Forall_singleton, in_range_singleton; lia.
  - apply Forall_app; split; auto using without_char_Forall.
    apply Forall_singleton, in_range_singleton; lia.
Qed.

Lemma update_loop_in_range guess L i todo cs :
  i + length todo = L →
  (2 ≤ L ∨ ∀ ch, ch ∈ todo → colour ch ≠ Some YELLOW) →
  Forall (in_range L) cs →
  match update_loop guess L i todo cs with
  | Ok cs' => Forall (in_range L) cs'
  | Raise e => e = UnexpectedColour ∧ ∃ ch, ch ∈ todo ∧ colour ch = None
  end.
Proof.
  revert i cs. induction todo as [|ch todo IH]; intros i cs Hlen Hy Hcs;
    simpl in *; [done|].
  pose proof (update_char_in_range guess L cs i ch) as Hstep.
  destruct (update_char guess L cs i ch) as [cs1|e]; simpl.
  - specialize (IH (S i) cs1).
    destruct (update_loop guess L (S i) todo cs1).
    + apply IH; [lia| |apply Hstep; [lia| |done]].
      * destruct Hy as [?|Hy]; [by left|right]. intros ??. apply Hy. by right.
      * destruct Hy as [?|Hy]; [by left|right]. apply Hy. by left.
    + destruct IH as [-> (ch' & ? & ?)]; [lia| | |].
      * destruct Hy as [?|Hy]; [by left|right]. intros ??. apply Hy. by right.
      * apply Hstep; [lia| |done].
        destruct Hy as [?|Hy]; [by left|right]. apply Hy. by left.
      * split; [done|]. exists ch'. split; [by right|done].
  - destruct Hstep as [-> ?]; [lia| |done|].
    + destruct Hy as [?|Hy]; [by left|right]. apply Hy. by left.
    + split; [done|]. exists ch. split; [by left|done].
Qed.




(** An evaluated guess has a yellow letter only if the words have two
    letters or more: the evaluator's guesses meet the condition on yellow
    letters at every word length. *)
Lemma evaluated_yellow_needs_two_letters wd solution ch :
  length wd = length solution →
  ch ∈ chars (create_from_word wd solution) →
  colour ch = Some YELLOW →
  2 ≤ length wd.
Proof.
  intros Hlen [j Hj]%list_elem_of_lookup_1 Hy.
  assert (j < length wd `min` length solution) as Hlt.
  { rewrite <- create_from_word_length. by eapply lookup_lt_Some. }
  destruct (lookup_lt_is_Some_2 wd j) as [a Ha]; [lia|].
  destruct (lookup_lt_is_Some_2 solution j) as [b Hb]; [lia|].
  destruct (create_from_word_lookup solution wd j a b Ha Hb)
    as (col & Hcol & Hcase).
  rewrite Hj in Hcol. injection Hcol as ->. simpl in Hy. injection Hy as ->.
  destruct Hcase as [Hab [k Hk]%list_elem_of_lookup_1].
  assert (k ≠ j) by congruence.
  apply lookup_lt_Some in Hk. lia.
Qed.

(** ** Floats *)

(** The sum of two floats that are zero, positive or plus infinity is one
    of these again: rounding never turns it into a NaN. *)
Section Rounding.
Local Open Scope Z_scope.

Lemma shr_1_nonneg mrs : 0 ≤ shr_m mrs → 0 ≤ shr_m (shr_1 mrs).
Proof. destruct mrs as [[|[p|p|]|p] r s]; simpl; lia. Qed.

Lemma iter_pos_invariant {A} (P : A → Prop) (f : A → A) :
  (∀ x, P x → P (f x)) → ∀ n x, P x → P (SpecFloat.iter_pos f n x).
Proof.
  intros Hf. induction n as [n IH|n IH|]; intros x Hx; simpl; auto.
Qed.

Lemma shr_nonneg mrs e n : 0 ≤ shr_m mrs → 0 ≤ shr_m (shr mrs e n).1.
Proof.
  intros Hm. destruct n as [|p|p]; simpl; [done| |done].
  by apply (iter_pos_invariant (λ r, 0 ≤ shr_m r)); [apply shr_1_nonneg|].
Qed.

Lemma shr_fexp_nonneg prec emax m e l :
  0 ≤ m → 0 ≤ shr_m (shr_fexp prec emax m e l).1.
Proof.
  intros Hm. unfold shr_fexp. apply shr_nonneg.
  by destruct l as [|[]].
Qed.

Lemma round_nearest_even_nonneg m l : 0 ≤ m → 0 ≤ round_nearest_even m l.
Proof.
  intros Hm. destruct l as [|[]]; simpl; [done| |done|lia].
  destruct (Z.even m); lia.
Qed.

Lemma binary_round_aux_nonneg prec emax m e l :
  0 ≤ m → SFnonneg (binary_round_aux prec emax false m e l).
Proof.
  intros Hm. unfold binary_round_aux.
  pose proof (shr_fexp_nonneg prec emax m e l Hm) as H1.
  destruct (shr_fexp prec emax m e l) as [mrs' e']. simpl in H1.
  pose proof (shr_fexp_nonneg prec emax _ e' loc_Exact
                (round_nearest_even_nonneg _ (loc_of_shr_record mrs') H1))
    as H2.
  destruct (shr_fexp prec emax _ e' loc_Exact) as [mrs'' e'']. simpl in H2.
  destruct (shr_m mrs'') as [|p|p]; [done| |lia].
  by destruct (_ <=? _).
Qed.

Lemma SFadd_nonneg prec emax x y :
  SFnonneg x → SFnonneg y → SFnonneg (SFadd prec emax x y).
Proof.
  destruct x as [sx|[]| |[] mx ex], y as [sy|[]| |[] my ey]; try done.
  - intros _ _. by destruct sx, sy.
  - intros _ _. unfold SFadd, cond_Zopp, binary_normalize.
    destruct (_ + _) as [|p|p] eqn:Hsum; [done| |lia].
    unfold binary_round. destruct (shl_align p _ _) as [mz ez].
    by apply binary_round_aux_nonneg.
Qed.

Lemma SFadd_comm prec emax x y : SFadd prec emax x y = SFadd prec emax y x.
Proof.
  destruct x as [[]|[]| |sx mx ex], y as [[]|[]| |sy my ey]; try done.
  unfold SFadd. by rewrite Z.add_comm, Z.min_comm.
Qed.

End Rounding.

(** The comparisons of such floats are those of a total order. *)
Ltac compare_cases :=
  unfold SFltb, SFleb, SFcompare;
  change (Pos.compare_cont Eq ?a ?b) with (Pos.compare a b);
  intros;
  repeat match goal with
    | |- context [Z.compare ?a ?b] => destruct (Z.compare_spec a b)
    | |- context [Pos.compare ?a ?b] => destruct (Pos.compare_spec a b)
    | H : context [Z.compare ?a ?b] |- _ => destruct (Z.compare_spec a b)
    | H : context [Pos.compare ?a ?b] |- _ => destruct (Pos.compare_spec a b)
    end;
  simpl in *; try done; lia.

Lemma SFltb_trans x y z :
  SFnonneg x → SFnonneg y → SFnonneg z →
  SFltb x y = true → SFltb y z = true → SFltb x z = true.
Proof.
  destruct x as [?|[]| |[] mx ex], y as [?|[]| |[] my ey],
    z as [?|[]| |[] mz ez]; try done; compare_cases.
Qed.

Lemma SFleb_ltb_trans x y z :
  SFnonneg x → SFnonneg y → SFnonneg z →
  SFleb x y = true → SFltb y z = true → SFltb x z = true.
Proof.
  destruct x as [?|[]| |[] mx ex], y as [?|[]| |[] my ey],
    z as [?|[]| |[] mz ez]; try done; compare_cases.
Qed.

Lemma SFltb_negb_leb x y :
  SFnonneg x → SFnonneg y → SFltb x y = negb (SFleb y x).
Proof.
  destruct x as [?|[]| |[] mx ex], y as [?|[]| |[] my ey]; try done;
    compare_cases.
Qed.

Lemma SFleb_zero x : SFnonneg x → SFleb (S754_zero false) x = true.
Proof. by destruct x as [?|[]| |[] mx ex]. Qed.

Lemma add_nonnegative (x y : float) :
  nonnegative x → nonnegative y → nonnegative (x + y).
Proof. unfold nonnegative. rewrite add_spec. apply SFadd_nonneg. Qed.

Lemma float_add_comm (x y : float) : (x + y = y + x)%float.
Proof. apply Prim2SF_inj. rewrite !add_spec. apply SFadd_comm. Qed.

Lemma ltb_trans (x y z : float) :
  nonnegative x → nonnegative y → nonnegative z →
  (x <? y)%float = true → (y <? z)%float = true → (x <? z)%float = true.
Proof. rewrite !ltb_spec. apply SFltb_trans. Qed.

Lemma leb_ltb_trans (x y z : float) :
  nonnegative x → nonnegative y → nonnegative z →
  (x <=? y)%float = true → (y <? z)%float = true → (x <? z)%float = true.
Proof. rewrite leb_spec, !ltb_spec. apply SFleb_ltb_trans. Qed.

Lemma ltb_negb_leb (x y : float) :
  nonnegative x → nonnegative y → (x <? y)%float = negb (y <=? x)%float.
Proof. rewrite leb_spec, ltb_spec. apply SFltb_negb_leb. Qed.

Lemma ltb_false_leb (x y : float) :
  nonnegative x → nonnegative y →
  (x <? y)%float = false → (y <=? x)%float = true.
Proof.
  intros Hx Hy. rewrite (ltb_negb_leb x y Hx Hy). by destruct (y <=? x)%float.
Qed.

Lemma leb_zero (x : float) : nonnegative x → (0 <=? x)%float = true.
Proof. rewrite leb_spec. apply SFleb_zero. Qed.

(** ** The frequency score *)

(** The weights of the table are positive numbers; adding one to 0 gives
    it back. *)
Lemma weight_Raise c e : weight c = Raise e → e = KeyError.
Proof. unfold weight. by destruct (CHAR_TO_FREQUENCY !! c); intros [= <-]. Qed.

Lemma weight_positive c f :
  weight c = Ok f →
  nonnegative f ∧ (0 <? f)%float = true ∧ (0 + f)%float = f.
Proof.
  unfold weight. destruct (CHAR_TO_FREQUENCY !! c) as [f'|] eqn:Hc; [|done].
  intros [= ->].
  assert (map_Forall
            (λ _ x, nonnegative x ∧ (0 <? x)%float = true
                    ∧ Prim2SF (0 + x) = Prim2SF x)
            CHAR_TO_FREQUENCY) as Hall.
  { apply (bool_decide_unpack _). vm_compute. exact I. }
  destruct (Hall c f Hc) as (? & ? & ?). auto using Prim2SF_inj.
Qed.

(** The score is the sum, from left to right, of the weights of the
    letters in the order of visit. *)
Lemma sum_frequencies_weights acc l :
  sum_frequencies acc l
  = (fs ← weights l; Ok (fold_left PrimFloat.add fs acc)).
Proof.
  revert acc. induction l as [|c l IH]; intros acc;
    cbn [sum_frequencies weights]; [done|].
  unfold weight. destruct (CHAR_TO_FREQUENCY !! c) as [f|]; [|done].
  rewrite IH. unfold mbind, result_bind. by destruct (weights l).
Qed.

Lemma iter_set_remove_dups `{SetOrder} (wd : word) :
  iter_set wd ≡ₚ remove_dups wd.
Proof.
  rewrite iter_set_perm.
  assert ((list_to_set wd : gset ascii) = list_to_set (remove_dups wd))
    as ->.
  { apply set_eq. intros c.
    by rewrite !elem_of_list_to_set, elem_of_remove_dups. }
  apply elements_list_to_set, NoDup_remove_dups.
Qed.

Lemma elem_of_iter_set `{SetOrder} (wd : word) c : c ∈ iter_set wd ↔ c ∈ wd.
Proof. by rewrite iter_set_remove_dups, elem_of_remove_dups. Qed.

Lemma remove_dups_Permutation (l k : list ascii) :
  l ≡ₚ k → remove_dups l ≡ₚ remove_dups k.
Proof.
  intros Hp. apply NoDup_Permutation; [apply NoDup_remove_dups..|].
  intros x. by rewrite !elem_of_remove_dups, Hp.
Qed.

(** Up to two terms, the order of the terms does not matter. *)
Lemma float_sum_short l k :
  l ≡ₚ k → length l ≤ 2 →
  (fs ← weights l; Ok (float_sum fs)) = (fs ← weights k; Ok (float_sum fs)).
Proof.
  intros Hp Hlen. destruct l as [|a [|b [|c l]]]; simpl in Hlen; [..|lia].
  - by apply Permutation_nil in Hp as ->.
  - by apply Permutation_singleton_l in Hp as ->.
  - apply Permutation_length_2_inv in Hp as [->| ->]; [done|].
    cbn [weights]. unfold mbind, result_bind, float_sum.
    destruct (weight a) as [fa|ea] eqn:Ha, (weight b) as [fb|eb] eqn:Hb;
      simpl.
    + destruct (weight_positive a fa Ha) as (_ & _ & ->).
      destruct (weight_positive b fb Hb) as (_ & _ & ->).
      by rewrite float_add_comm.
    + done.
    + done.
    + by rewrite (weight_Raise a ea Ha), (weight_Raise b eb Hb).
Qed.




(** ** The candidate selector *)

Lemma CHAR_TO_FREQUENCY_ALL_CHARS c :
  c ∈ ALL_CHARS → is_Some (CHAR_TO_FREQUENCY !! c).
Proof.
  unfold ALL_CHARS. rewrite elem_of_list_to_set. cbv [w list_ascii_of_string].
  rewrite !elem_of_cons, elem_of_nil.
  intros Hc; repeat (destruct Hc as [->|Hc]); [..|done];
    vm_compute; eauto.
Qed.

Lemma sum_frequencies_total acc l :
  (∀ c, c ∈ l → c ∈ ALL_CHARS) → ∃ s, sum_frequencies acc l = Ok s.
Proof.
  revert acc. induction l as [|c l IH]; intros acc Hl;
    cbn [sum_frequencies]; [by eexists|].
  destruct (CHAR_TO_FREQUENCY_ALL_CHARS c) as [f ->]; [apply Hl; by left|].
  apply IH. intros ??. apply Hl. by right.
Qed.

Section Selection.
Context `{SetOrder}.

Lemma get_frequency_score_total L wd :
  valid_word L wd → ∃ s, get_frequency_score wd = Ok s.
Proof.
  intros [_ Hwd]. apply sum_frequencies_total. rewrite Forall_forall in Hwd.
  intros c Hc. by apply Hwd, (elem_of_iter_set wd c).
Qed.

Lemma all_satisfied_true constraints wd :
  all_satisfied constraints wd = Ok true
  ↔ Forall (λ c, is_satisfied c wd = Ok true) constraints.
Proof.
  induction constraints as [|c cs IH]; simpl; [by split|].
  rewrite Forall_cons, <- IH.
  destruct (is_satisfied c wd) as [[]|]; simpl; intuition congruence.
Qed.

Lemma all_satisfied_total L constraints wd :
  Forall (below L) constraints →
  length wd = L →
  ∃ b, all_satisfied constraints wd = Ok b.
Proof.
  intros Hcs Hwd. induction Hcs as [|c cs Hc _ IH]; simpl; [by eexists|].
  destruct (is_satisfied_in_range L c wd Hc Hwd) as [[] ->]; simpl;
    [done|by eexists].
Qed.

Lemma filter_words_elem_of words constraints kept wd :
  filter_words words constraints = Ok kept →
  wd ∈ kept ↔ wd ∈ words ∧ all_satisfied constraints wd = Ok true.
Proof.
  revert kept. induction words as [|x words IH]; intros kept; simpl.
  { intros [= <-]. rewrite elem_of_nil. tauto. }
  destruct (all_satisfied constraints x) as [keep|] eqn:Hx; simpl; [|done].
  destruct (filter_words words constraints) as [rest|]; simpl; [|done].
  intros [= <-]. specialize (IH rest eq_refl). destruct keep.
  - rewrite !elem_of_cons, IH. split.
    + intros [->|[? ?]]; auto.
    + intros [[->|?] ?]; auto.
  - rewrite elem_of_cons, IH. split.
    + intros [? ?]; auto.
    + intros [[->|?] ?]; [congruence|auto].
Qed.

Lemma filter_words_total L words constraints :
  Forall (valid_word L) words →
  Forall (below L) constraints →
  ∃ kept, filter_words words constraints = Ok kept.
Proof.
  intros Hwords Hcs. induction Hwords as [|x words [Hx _] _ IH]; simpl;
    [by eexists|].
  destruct (all_satisfied_total L constraints x Hcs Hx) as [keep ->]. simpl.
  destruct IH as [rest ->]. simpl. by eexists.
Qed.

Lemma max_from_elem_of best key words x :
  max_from best key words = Ok x → x = best ∨ x ∈ words.
Proof.
  revert best key. induction words as [|y words IH]; intros best key; simpl.
  { intros [= <-]. by left. }
  destruct (get_frequency_score y) as [k|]; simpl; [|done].
  destruct (key <? k)%float; intros [->|?]%IH;
    rewrite elem_of_cons; auto.
Qed.

Lemma max_from_total L best key words :
  Forall (valid_word L) words → ∃ x, max_from best key words = Ok x.
Proof.
  intros Hwords. revert best key.
  induction Hwords as [|y words Hy _ IH]; intros best key; simpl;
    [by eexists|].
  destruct (get_frequency_score_total L y Hy) as [k ->]. simpl.
  destruct (key <? k)%float; apply IH.
Qed.

(** Whatever the inputs, a word that [get_word_to_guess] returns is one
    of the given words and [is_satisfied] is true of it for every given
    constraint. *)
Lemma get_word_to_guess_sound words constraints wd :
  get_word_to_guess words constraints = Ok wd →
  wd ∈ words ∧ Forall (λ c, is_satisfied c wd = Ok true) constraints.
Proof.
  unfold get_word_to_guess.
  destruct (filter_words words constraints) as [kept|] eqn:Hkept; simpl;
    [|done].
  intros Hmax. rewrite <- all_satisfied_true.
  apply (filter_words_elem_of _ _ _ _ Hkept).
  destruct kept as [|x kept]; simpl in Hmax; [done|].
  destruct (get_frequency_score x) as [k|]; simpl in Hmax; [|done].
  apply max_from_elem_of in Hmax as [->|?]; rewrite elem_of_cons; auto.
Qed.

Lemma filter_words_valid L words constraints kept :
  filter_words words constraints = Ok kept →
  Forall (valid_word L) words → Forall (valid_word L) kept.
Proof.
  intros Hkept. rewrite !Forall_forall. intros Hwords y Hy.
  apply Hwords. by apply (filter_words_elem_of _ _ _ y Hkept).
Qed.

(** [max] of a list that is not empty returns. *)
Lemma max_by_frequency_score_total L x kept :
  Forall (valid_word L) (x :: kept) →
  ∃ y, max_by_frequency_score (x :: kept) = Ok y.
Proof.
  intros [Hx Hkept]%Forall_cons. simpl.
  destruct (get_frequency_score_total L x Hx) as [k ->]. simpl.
  by apply (max_from_total L).
Qed.

End Selection.

(** C5. On a corpus of words of one length over the alphabet and on
    constraints whose positions are positions of such words,
    [get_word_to_guess] either returns a word of the corpus of which every
    constraint is satisfied, or no word of the corpus satisfies them all
    and it raises the error of [max] on an empty list. *)
Theorem get_word_to_guess_spec `{SetOrder} (words : list word)
    (constraints : list Constraint) (word_length : nat) :
  Forall (valid_word word_length) words →
  Forall (below word_length) constraints →
  (∃ wd, get_word_to_guess words constraints = Ok wd
         ∧ wd ∈ words
         ∧ Forall (λ c, is_satisfied c wd = Ok true) constraints)
  ∨ (get_word_to_guess words constraints = Raise EmptySequence
     ∧ ∀ wd, wd ∈ words →
         ¬ Forall (λ c, is_satisfied c wd = Ok true) constraints).
Proof.
  intros Hwords Hcs.
  destruct (get_word_to_guess words constraints) as [wd|e] eqn:Hget.
  { left. exists wd. split; [done|]. by apply get_word_to_guess_sound. }
  right. unfold get_word_to_guess in Hget.
  destruct (filter_words_total word_length words constraints Hwords Hcs)
    as [kept Hkept].
  rewrite Hkept in Hget. simpl in Hget.
  destruct kept as [|x kept].
  - injection Hget as <-. split; [done|].
    intros wd Hwd Hsat%all_satisfied_true.
    eapply elem_of_nil, (filter_words_elem_of _ _ _ wd Hkept). done.
  - destruct (max_by_frequency_score_total word_length x kept) as [y Hy];
      [by eapply filter_words_valid|congruence].
Qed.

(** Outside those inputs the selector can end in another exception. *)
Example get_word_to_guess_unknown_letter :
  @get_word_to_guess elements_order [w "Later"] [] = Raise KeyError.
Proof. vm_compute. reflexivity. Qed.

Example get_word_to_guess_position_beyond_word :
  @get_word_to_guess elements_order [w "ab"]
    [mkConstraint "a" {[ 5 ]} NOT_IN_POSITIONS]
  = Raise IndexError.
Proof. vm_compute. reflexivity. Qed.

Lemma get_word_to_guess_spec_witness :
  Forall (valid_word 5) [w "later"; w "piano"; w "boots"]
  ∧ Forall (below 5) [mkConstraint "o" {[ 1 ]} IN_SOME_POSITION]
  ∧ ((∃ wd, @get_word_to_guess elements_order
              [w "later"; w "piano"; w "boots"]
              [mkConstraint "o" {[ 1 ]} IN_SOME_POSITION] = Ok wd
            ∧ wd ∈ [w "later"; w "piano"; w "boots"]
            ∧ Forall (λ c, @is_satisfied elements_order c wd = Ok true)
                [mkConstraint "o" {[ 1 ]} IN_SOME_POSITION])
     ∨ (@get_word_to_guess elements_order
          [w "later"; w "piano"; w "boots"]
          [mkConstraint "o" {[ 1 ]} IN_SOME_POSITION] = Raise EmptySequence
        ∧ ∀ wd, wd ∈ [w "later"; w "piano"; w "boots"] →
            ¬ Forall (λ c, @is_satisfied elements_order c wd = Ok true)
                [mkConstraint "o" {[ 1 ]} IN_SOME_POSITION])).
Proof.
  assert (Forall (valid_word 5) [w "later"; w "piano"; w "boots"]) as Hwords.
  { apply (bool_decide_unpack _). vm_compute. exact I. }
  assert (Forall (below 5) [mkConstraint "o" {[ 1 ]} IN_SOME_POSITION])
    as Hcs.
  { apply (bool_decide_unpack _). vm_compute. exact I. }
  split; [exact Hwords|]. split; [exact Hcs|].
  exact (@get_word_to_guess_spec elements_order _ _ 5 Hwords Hcs).
Defined.

(** ** The updater on the object store *)

Section StoreFacts.

Lemma contents_Some h l cs :
  Store.contents h l = Some cs
  ↔ ∃ items, Store.lists h !! l = Some items ∧ Store.lead_to h items cs.
Proof.
  unfold Store.contents, Store.lead_to.
  destruct (Store.lists h !! l) as [items|]; simpl.
  - rewrite mapM_Some. split; [by exists items|]. by intros (? & [= <-] & ?).
  - split; [done|]. by intros (? & ? & ?).
Qed.

Lemma unchanged_refl h : Store.unchanged h h.
Proof. by split. Qed.

Lemma unchanged_trans h1 h2 h3 :
  Store.unchanged h1 h2 → Store.unchanged h2 h3 → Store.unchanged h1 h3.
Proof. intros [??] [??]. split; by etrans. Qed.

Lemma lead_to_mono h h' items cs :
  Store.instances h ⊆ Store.instances h' →
  Store.lead_to h items cs → Store.lead_to h' items cs.
Proof.
  intros Hsub Hl. unfold Store.lead_to. eapply Forall2_impl; [done|].
  intros a c Ha. exact (lookup_weaken _ _ _ _ Ha Hsub).
Qed.

Lemma fresh_list h : Store.lists h !! fresh (dom (Store.lists h)) = None.
Proof. apply not_elem_of_dom, is_fresh. Qed.

Lemma fresh_instance h :
  Store.instances h !! fresh (dom (Store.instances h)) = None.
Proof. apply not_elem_of_dom, is_fresh. Qed.

(** Appending a new instance to the working list. *)
Lemma append_new_working h0 cur cs c h :
  Store.working h0 cur cs h →
  ∃ h', Store.append_new cur c h = Some (Ok (), h')
        ∧ Store.working h0 cur (cs ++ [c]) h'.
Proof.
  intros ([Hl Hi] & Hcur & items & Hitems & Hlead).
  unfold Store.append_new, Store.bind, Store.new_instance, Store.append.
  simpl. rewrite Hitems.
  eexists. split; [done|]. pose proof (fresh_instance h) as Hfresh.
  split; [split; simpl|split; [done|]].
  - by apply insert_subseteq_r.
  - etrans; [done|]. by apply insert_subseteq.
  - exists (items ++ [fresh (dom (Store.instances h))]). simpl.
    split; [by rewrite lookup_insert_eq|].
    apply Forall2_app.
    + eapply lead_to_mono; [|done]. simpl. by apply insert_subseteq.
    + constructor; [|constructor]. simpl. by rewrite lookup_insert_eq.
Qed.

Lemma keep_other_spec c items cs h :
  Store.lead_to h items cs →
  ∃ kept, Store.keep_other c items h = Some (Ok kept, h)
          ∧ Store.lead_to h kept (without_char c cs).
Proof.
  induction 1 as [|a x items cs Ha _ (kept & Hkept & Hlead)]; simpl.
  { exists []. split; [done|]. constructor. }
  unfold Store.bind, Store.read_instance. rewrite Ha, Hkept. simpl.
  eexists. split; [done|]. unfold without_char. rewrite filter_cons.
  case_bool_decide; destruct (decide (char x ≠ c)); try done.
  by constructor.
Qed.

(** The comprehension makes a new working list. *)
Lemma without_char_working h0 cur cs c h :
  Store.working h0 cur cs h →
  ∃ cur' h', Store.without_char c cur h = Some (Ok cur', h')
             ∧ Store.working h0 cur' (without_char c cs) h'.
Proof.
  intros ([Hl Hi] & Hcur & items & Hitems & Hlead).
  destruct (keep_other_spec c items cs h Hlead) as (kept & Hkept & Hlk).
  unfold Store.without_char, Store.bind, Store.read_list, Store.new_list.
  rewrite Hitems, Hkept. simpl. do 2 eexists. split; [done|].
  pose proof (fresh_list h) as Hfresh.
  split; [split; simpl; [|done]|split].
  - etrans; [done|]. by apply insert_subseteq.
  - eapply lookup_weaken_None; done.
  - exists kept. simpl. split; [by rewrite lookup_insert_eq|done].
Qed.

(** One round of the loop on the store does to the working list what
    [update_char] does to its value. *)
Lemma update_char_working h0 guess L cur cs i ch h :
  Store.working h0 cur cs h →
  ∃ res h', Store.update_char guess L cur i ch h = Some (res, h')
    ∧ Store.unchanged h0 h'
    ∧ match update_char guess L cs i ch with
      | Ok cs' => ∃ cur', res = Ok cur' ∧ Store.working h0 cur' cs' h'
      | Raise e => res = Raise e
      end.
Proof.
  intros Hw. unfold Store.update_char, update_char.
  destruct (colour ch) as [[| |]|].
  - case_bool_decide.
    + destruct (append_new_working _ _ _
                  (mkConstraint (letter ch) {[ i ]} NOT_IN_POSITIONS) _ Hw)
        as (h1 & Happ & Hw1).
      unfold Store.bind at 1. rewrite Happ. do 2 eexists.
      split; [done|]. split; [apply Hw1|]. by eexists.
    + destruct (without_char_working _ _ _ (letter ch) _ Hw)
        as (cur1 & h1 & Hwc & Hw1).
      destruct (append_new_working _ _ _
                  (mkConstraint (letter ch) (list_to_set (seq 0 L))
                     NOT_IN_POSITIONS) _ Hw1) as (h2 & Happ & Hw2).
      unfold Store.bind at 1. rewrite Hwc. unfold Store.bind at 1. rewrite Happ.
      do 2 eexists. split; [done|]. split; [apply Hw2|]. by eexists.
  - destruct (append_new_working _ _ _
                (mkConstraint (letter ch)
                   (list_to_set (filter (λ j, j ≠ i) (seq 0 L)))
                   IN_SOME_POSITION) _ Hw) as (h1 & Happ1 & Hw1).
    destruct (append_new_working _ _ _
                (mkConstraint (letter ch) {[ i ]} NOT_IN_POSITIONS) _ Hw1)
      as (h2 & Happ2 & Hw2).
    unfold Store.bind at 1. rewrite Happ1.
    unfold Store.bind at 1. rewrite Happ2.
    do 2 eexists. split; [done|]. split; [apply Hw2|]. by eexists.
  - destruct (without_char_working _ _ _ (letter ch) _ Hw)
      as (cur1 & h1 & Hwc & Hw1).
    destruct (append_new_working _ _ _
                (mkConstraint (letter ch) {[ i ]} IN_SOME_POSITION) _ Hw1)
      as (h2 & Happ & Hw2).
    unfold Store.bind at 1. rewrite Hwc. unfold Store.bind at 1. rewrite Happ.
    do 2 eexists. split; [done|]. split; [apply Hw2|]. by eexists.
  - do 2 eexists. split; [done|]. split; [apply Hw|done].
Qed.

Lemma update_loop_working h0 guess L i todo cur cs h :
  Store.working h0 cur cs h →
  ∃ res h', Store.update_loop guess L i todo cur h = Some (res, h')
    ∧ Store.unchanged h0 h'
    ∧ match update_loop guess L i todo cs with
      | Ok cs' => ∃ cur', res = Ok cur' ∧ Store.working h0 cur' cs' h'
      | Raise e => res = Raise e
      end.
Proof.
  revert i cur cs h. induction todo as [|ch todo IH]; intros i cur cs h Hw;
    simpl.
  { do 2 eexists. split; [done|]. split; [apply Hw|]. by eexists. }
  destruct (update_char_working h0 guess L cur cs i ch h Hw)
    as (res & h1 & Hstep & Hun & Hres).
  unfold Store.bind at 1. rewrite Hstep.
  destruct (update_char guess L cs i ch) as [cs1|e]; simpl.
  - destruct Hres as (cur1 & -> & Hw1). by apply IH.
  - subst res. by do 2 eexists.
Qed.
Lemma deepcopy_items_working h0 y items : ∀ memo cs_items copied cs_copied h,
  Store.unchanged h0 h → Store.lists h0 !! y = None →
  Store.lists h !! y = Some copied → Store.lead_to h copied cs_copied →
  Store.lead_to h items cs_items →
  (∀ a a', memo !! a = Some a' →
     ∃ c, Store.instances h !! a = Some c ∧ Store.instances h !! a' = Some c) →
  ∃ h', Store.deepcopy_items y memo items h = Some (Ok (), h')
        ∧ Store.working h0 y (cs_copied ++ cs_items) h'.
Proof.
  induction items as [|a items IH];
    intros memo cs_items copied cs_copied h [Hl Hi] Hy Hcopied Hlc Hli Hmemo.
  { apply Forall2_nil_inv_l in Hli as ->. rewrite app_nil_r.
    eexists. split; [done|]. repeat split; [done..|]. by exists copied. }
  apply Forall2_cons_inv_l in Hli as (c & cs_rest & Ha & Hrest & ->).
  replace (cs_copied ++ c :: cs_rest) with ((cs_copied ++ [c]) ++ cs_rest)
    by (by rewrite <- app_assoc).
  simpl. destruct (memo !! a) as [a'|] eqn:Hma.
  - destruct (Hmemo a a' Hma) as (c' & Hc' & Ha').
    assert (c' = c) as -> by congruence.
    unfold Store.bind at 1. unfold Store.append. rewrite Hcopied.
    apply (IH memo cs_rest (copied ++ [a']) (cs_copied ++ [c])); simpl.
    + split; simpl; [by apply insert_subseteq_r|done].
    + done.
    + by rewrite lookup_insert_eq.
    + apply Forall2_app; [done|]. by repeat constructor.
    + done.
    + done.
  - unfold Store.bind at 1. unfold Store.read_instance. rewrite Ha.
    unfold Store.bind at 1. unfold Store.new_instance.
    unfold Store.bind at 1. unfold Store.append. simpl. rewrite Hcopied.
    pose proof (fresh_instance h) as Hfresh.
    set (a' := fresh (dom (Store.instances h))) in *.
    assert (Store.instances h ⊆ <[a' := c]> (Store.instances h)) as Hgrow
      by (by apply insert_subseteq).
    apply (IH (<[a := a']> memo) cs_rest (copied ++ [a'])
             (cs_copied ++ [c])); simpl.
    + split; simpl; [by apply insert_subseteq_r|by etrans].
    + done.
    + by rewrite lookup_insert_eq.
    + apply Forall2_app.
      * by eapply lead_to_mono.
      * constructor; [|constructor]. simpl. by rewrite lookup_insert_eq.
    + by eapply lead_to_mono.
    + intros b b' Hb. destruct (decide (a = b)) as [<-|Hne].
      * rewrite lookup_insert_eq in Hb. injection Hb as <-.
        exists c. split; [exact (lookup_weaken _ _ _ _ Ha Hgrow)|].
        by rewrite lookup_insert_eq.
      * rewrite lookup_insert_ne in Hb by done.
        destruct (Hmemo b b' Hb) as (c' & Hb1 & Hb2). exists c'.
        split; [exact (lookup_weaken _ _ _ _ Hb1 Hgrow)|].
        exact (lookup_weaken _ _ _ _ Hb2 Hgrow).
Qed.

(** [deepcopy] makes a working list with the constraints of its
    argument. *)
Lemma deepcopy_working h constraints cs :
  Store.contents h constraints = Some cs →
  ∃ y h', Store.deepcopy constraints h = Some (Ok y, h')
          ∧ Store.working h y cs h'.
Proof.
  intros (items & Hitems & Hlead)%contents_Some.
  unfold Store.deepcopy. unfold Store.bind at 1. unfold Store.read_list.
  rewrite Hitems. unfold Store.bind at 1. unfold Store.new_list.
  pose proof (fresh_list h) as Hfresh.
  set (y := fresh (dom (Store.lists h))) in *.
  destruct (deepcopy_items_working h y items ∅ cs [] []
              (Store.mkStore (<[y := []]> (Store.lists h))
                 (Store.instances h)))
    as (h' & Hcopy & Hw); simpl.
  - split; simpl; [by apply insert_subseteq|done].
  - done.
  - by rewrite lookup_insert_eq.
  - constructor.
  - done.
  - intros a a' Ha. by rewrite lookup_empty in Ha.
  - unfold Store.bind. rewrite Hcopy. by do 2 eexists.
Qed.
End StoreFacts.

(** C6. On every store in which the reference [constraints] leads to a
    list of constraints, [update_constraints] returns; every list and
    every [Constraint] instance of that store is in the store after the
    call with the state it had, so that [constraints] still leads to the
    same constraints; and the list returned is an object that the store
    did not have, holding the updated constraints. *)
Theorem update_constraints_leaves_input (h : Store.store)
    (constraints : Store.loc) (cs : list Constraint) (guess : Guess)
    (word_length : nat) :
  Store.contents h constraints = Some cs →
  ∃ res h',
    Store.update_constraints constraints guess word_length h = Some (res, h')
    ∧ Store.unchanged h h'
    ∧ Store.contents h' constraints = Some cs
    ∧ match update_constraints cs guess word_length with
      | Ok cs' =>
          ∃ new_constraints, res = Ok new_constraints
            ∧ Store.lists h !! new_constraints = None
            ∧ Store.contents h' new_constraints = Some cs'
      | Raise e => res = Raise e
      end.
Proof.
  intros Hcs.
  destruct (deepcopy_working h constraints cs Hcs) as (y & h1 & Hcopy & Hw).
  destruct (update_loop_working h guess word_length 0 (chars guess) y cs h1 Hw)
    as (res & h' & Hloop & Hun & Hres).
  exists res, h'. unfold Store.update_constraints, Store.bind.
  rewrite Hcopy. split; [done|]. split; [done|]. split.
  - apply contents_Some in Hcs as (items & Hitems & Hlead).
    apply contents_Some. exists items. destruct Hun as [Hl Hi].
    split; [exact (lookup_weaken _ _ _ _ Hitems Hl)|by eapply lead_to_mono].
  - unfold update_constraints.
    destruct (update_loop guess word_length 0 (chars guess) cs); [|done].
    destruct Hres as (cur & -> & _ & Hfresh & Hitems).
    exists cur. split; [done|]. split; [done|]. by apply contents_Some.
Qed.

Lemma update_constraints_leaves_input_witness :
  Store.contents
    (Store.mkStore {[ 1%positive := [2%positive] ]}
       {[ 2%positive := mkConstraint "o" {[ 1 ]} IN_SOME_POSITION ]})
    1%positive
  = Some [mkConstraint "o" {[ 1 ]} IN_SOME_POSITION]
  ∧ ∃ res h',
      Store.update_constraints 1%positive
        (create_from_word (w "boots") (w "piano")) 5
        (Store.mkStore {[ 1%positive := [2%positive] ]}
           {[ 2%positive := mkConstraint "o" {[ 1 ]} IN_SOME_POSITION ]})
      = Some (res, h')
      ∧ Store.unchanged
          (Store.mkStore {[ 1%positive := [2%positive] ]}
             {[ 2%positive := mkConstraint "o" {[ 1 ]} IN_SOME_POSITION ]})
          h'
      ∧ Store.contents h' 1%positive
        = Some [mkConstraint "o" {[ 1 ]} IN_SOME_POSITION].
Proof.
  split; [vm_compute; reflexivity|].
  destruct (update_constraints_leaves_input
              (Store.mkStore {[ 1%positive := [2%positive] ]}
                 {[ 2%positive := mkConstraint "o" {[ 1 ]} IN_SOME_POSITION ]})
              1%positive [mkConstraint "o" {[ 1 ]} IN_SOME_POSITION]
              (create_from_word (w "boots") (w "piano")) 5)
    as (res & h' & Hrun & Hun & Hin & _); [vm_compute; reflexivity|].
  exists res, h'. split; [exact Hrun|]. split; [exact Hun|exact Hin].
Defined.

(** ** What the updater learns is true of the solution *)

Lemma create_from_word_letters wd solution :
  length wd = length solution →
  letter <$> chars (create_from_word wd solution) = wd.
Proof.
  intros Hlen. apply list_eq_same_length with (length wd).
  - done.
  - rewrite length_fmap, create_from_word_length. lia.
  - intros i x y Hi. rewrite list_lookup_fmap. intros Hx Hy.
    destruct (lookup_lt_is_Some_2 solution i) as [b Hb]; [lia|].
    destruct (create_from_word_lookup solution wd i y b Hy Hb)
      as (col & Hcol & _).
    rewrite Hcol in Hx. by injection Hx.
Qed.

Lemma create_from_word_is_correct wd solution :
  length wd = length solution →
  is_correct (create_from_word wd solution) = true ↔ wd = solution.
Proof.
  intros Hlen. unfold is_correct.
  rewrite <- Is_true_true, forallb_True, Forall_lookup. split.
  - intros Hall. apply list_eq_same_length with (length wd); [done..|].
    intros i a b Hi Ha Hb.
    destruct (create_from_word_lookup solution wd i a b Ha Hb)
      as (col & Hcol & Hcase).
    apply Hall in Hcol. apply bool_decide_unpack in Hcol. simpl in Hcol.
    injection Hcol as ->. done.
  - intros <- i ch Hch. apply bool_decide_pack.
    assert (i < length wd `min` length wd) as Hi.
    { rewrite <- (create_from_word_length wd wd). by eapply lookup_lt_Some. }
    destruct (lookup_lt_is_Some_2 wd i) as [a Ha]; [lia|].
    destruct (create_from_word_lookup wd wd i a a Ha Ha)
      as (col & Hcol & Hcase).
    rewrite Hch in Hcol. injection Hcol as ->. simpl.
    destruct col; intuition congruence.
Qed.

Section Learning.
Variables (wd solution : word) (L : nat).
Hypothesis Hwd : length wd = L.
Hypothesis Hsolution : length solution = L.

Lemma not_in_solution c p : c ∉ solution → solution !! p ≠ Some c.
Proof. intros Hc Hp. apply Hc. by eapply list_elem_of_lookup_2. Qed.

(** One round keeps the constraints true of the solution. *)
Lemma update_char_holds cs i ch :
  chars (create_from_word wd solution) !! i = Some ch →
  Forall (λ c, holds c solution) cs →
  ∃ cs', update_char (create_from_word wd solution) L cs i ch = Ok cs'
         ∧ Forall (λ c, holds c solution) cs'.
Proof.
  intros Hi Hcs.
  assert (i < L) as HiL.
  { apply lookup_lt_Some in Hi. rewrite create_from_word_length in Hi. lia. }
  destruct (lookup_lt_is_Some_2 wd i) as [a Ha]; [lia|].
  destruct (lookup_lt_is_Some_2 solution i) as [b Hb]; [lia|].
  destruct (create_from_word_lookup solution wd i a b Ha Hb)
    as (col & Hcol & Hcase).
  rewrite Hi in Hcol. injection Hcol as ->.
  unfold update_char. simpl. destruct col.
  - (* grey *)
    destruct Hcase as [Hab Hwhy]. case_bool_decide as Hdup.
    + eexists. split; [done|]. apply Forall_app. split; [done|].
      apply Forall_singleton. unfold holds; simpl.
      intros p ->%elem_of_singleton. congruence.
    + eexists. split; [done|]. apply Forall_app.
      split; [by apply without_char_Forall|].
      apply Forall_singleton. unfold holds; simpl. intros p _.
      apply not_in_solution. destruct Hwhy as [?|(j' & Hne & Hj')]; [done|].
      exfalso. apply Hdup. unfold Counter.
      change (pass2 solution (pass1 wd solution))
        with (chars (create_from_word wd solution)).
      rewrite create_from_word_letters by congruence.
      by apply (count_lookup_two _ wd j' i a a).
  - (* yellow *)
    destruct Hcase as [Hab [p Hp]%list_elem_of_lookup_1].
    eexists. split; [done|]. repeat (apply Forall_app; split); [done|..].
    + apply Forall_singleton. unfold holds; simpl. exists p. split; [|done].
      apply elem_of_list_to_set, list_elem_of_filter.
      split; [congruence|]. apply elem_of_seq.
      apply lookup_lt_Some in Hp. lia.
    + apply Forall_singleton. unfold holds; simpl.
      intros q ->%elem_of_singleton. congruence.
  - (* green *)
    subst b. eexists. split; [done|]. apply Forall_app.
    split; [by apply without_char_Forall|].
    apply Forall_singleton. unfold holds; simpl. exists i. split; [|done].
    by apply elem_of_singleton.
Qed.

Lemma update_loop_holds todo : ∀ i cs,
  (∀ k ch, todo !! k = Some ch →
     chars (create_from_word wd solution) !! (i + k) = Some ch) →
  Forall (λ c, holds c solution) cs →
  ∃ cs', update_loop (create_from_word wd solution) L i todo cs = Ok cs'
         ∧ Forall (λ c, holds c solution) cs'.
Proof.
  induction todo as [|ch todo IH]; intros i cs Htodo Hcs; simpl.
  { by exists cs. }
  destruct (update_char_holds cs i ch) as (cs1 & -> & Hcs1); [|done|].
  { rewrite <- (Nat.add_0_r i). by apply Htodo. }
  simpl. apply IH; [|done]. intros k ch' Hk.
  replace (S i + k) with (i + S k) by lia. by apply Htodo.
Qed.

(** The updater keeps the constraints true of the solution, and returns. *)
Lemma update_constraints_holds cs :
  Forall (λ c, holds c solution) cs →
  ∃ cs', update_constraints cs (create_from_word wd solution) L = Ok cs'
         ∧ Forall (λ c, holds c solution) cs'.
Proof. intros Hcs. by apply update_loop_holds. Qed.

End Learning.

(** ** The puzzle loop *)

Lemma lower_char_ALL_CHARS c : c ∈ ALL_CHARS → lower_char c = c.
Proof.
  unfold ALL_CHARS. rewrite elem_of_list_to_set. cbv [w list_ascii_of_string].
  rewrite !elem_of_cons, elem_of_nil.
  intros Hc; repeat (destruct Hc as [->|Hc]); [..|done]; reflexivity.
Qed.

Lemma lower_valid_word L wd : valid_word L wd → lower wd = wd.
Proof.
  intros [_ Hwd]. unfold lower. induction Hwd as [|c wd Hc _ IH]; [done|].
  rewrite fmap_cons, IH. by rewrite lower_char_ALL_CHARS.
Qed.

(** [enter_word] accepts a corpus word while the budget lasts. *)
Lemma enter_word_valid self wd :
  valid_word WORD_LENGTH wd →
  length (guesses self) < MAX_NUM_GUESSES →
  enter_word self wd
  = (Ok (create_from_word wd (solution self)),
     mkPuzzle (solution self)
       (guesses self ++ [create_from_word wd (solution self)])).
Proof.
  intros Hwd Hlt. unfold enter_word.
  rewrite bool_decide_false by lia.
  rewrite bool_decide_false by (destruct Hwd; intros ?; done).
  rewrite (lower_valid_word _ _ Hwd).
  rewrite bool_decide_false; [done|].
  intros Hne. apply Hne. apply set_eq. intros c.
  rewrite elem_of_difference, elem_of_list_to_set.
  split; [|by intros ?%not_elem_of_empty].
  intros [Hc Hnc]. destruct Hwd as [_ Hwd]. rewrite Forall_forall in Hwd.
  destruct Hnc. by apply Hwd.
Qed.

Lemma won_snoc sol gs g : won (mkPuzzle sol (gs ++ [g])) = is_correct g.
Proof. unfold won. simpl. by rewrite last_snoc. Qed.

Section Run.
Context `{SetOrder}.
Variable words : list word.
Hypothesis Hwords : Forall (valid_word WORD_LENGTH) words.

(** A constraint that is true of a word of the corpus is satisfied by it. *)
Lemma is_satisfied_of_holds c wd :
  in_range WORD_LENGTH c → length wd = WORD_LENGTH → holds c wd →
  is_satisfied c wd = Ok true.
Proof.
  intros [_ Hc] Hwd Hholds.
  destruct (is_satisfied_in_range WORD_LENGTH c wd Hc Hwd) as [b Hb].
  rewrite Hb. f_equal. by apply (is_satisfied_holds c wd b Hb).
Qed.

(** While the solution is in the corpus and the constraints are true of
    it, the selector finds a word. *)
Lemma get_word_to_guess_finds sol constraints :
  sol ∈ words →
  Forall (λ c, holds c sol) constraints →
  Forall (in_range WORD_LENGTH) constraints →
  ∃ wd, get_word_to_guess words constraints = Ok wd ∧ wd ∈ words.
Proof.
  intros Hsol Hholds Hrange.
  assert (length sol = WORD_LENGTH) as Hlen.
  { rewrite Forall_forall in Hwords. by destruct (Hwords sol Hsol). }
  destruct (filter_words_total WORD_LENGTH words constraints Hwords)
    as [kept Hkept].
  { eapply Forall_impl; [done|]. by intros c [_ ?]. }
  assert (sol ∈ kept) as Hin.
  { apply (filter_words_elem_of _ _ _ sol Hkept). split; [done|].
    apply all_satisfied_true. rewrite Forall_forall in Hholds, Hrange.
    apply Forall_forall. intros c Hc. apply is_satisfied_of_holds; auto. }
  destruct kept as [|x kept]; [by apply elem_of_nil in Hin|].
  destruct (max_by_frequency_score_total WORD_LENGTH x kept) as [wd Hwd];
    [by eapply filter_words_valid|].
  assert (get_word_to_guess words constraints = Ok wd) as Hget.
  { unfold get_word_to_guess. by rewrite Hkept. }
  exists wd. split; [done|]. by apply (get_word_to_guess_sound _ _ _ Hget).
Qed.

(** The loop returns after as many rounds as the budget leaves, whatever
    fuel it is given beyond that. *)
Lemma simulate_loop_returns n : ∀ puzzle constraints,
  MAX_NUM_GUESSES - length (guesses puzzle) ≤ n →
  solution puzzle ∈ words →
  Forall (λ c, holds c (solution puzzle)) constraints →
  Forall (in_range WORD_LENGTH) constraints →
  ∃ final,
    (∀ fuel, n ≤ fuel →
       simulate_loop fuel words puzzle constraints = report final)
    ∧ is_in_progress final = false
    ∧ length (guesses final) ≤ MAX_NUM_GUESSES `max` length (guesses puzzle).
Proof.
  induction n as [|n IH]; intros puzzle constraints Hn Hsol Hholds Hrange.
  { exists puzzle.
    assert (is_in_progress puzzle = false) as Hstop.
    { unfold is_in_progress. destruct (won puzzle); [done|].
      apply bool_decide_false. lia. }
    split; [|split; [done|lia]].
    intros fuel _. destruct fuel; simpl; by rewrite Hstop. }
  destruct (is_in_progress puzzle) eqn:Hprogress.
  2:{ exists puzzle. split; [|split; [done|lia]].
      intros fuel _. destruct fuel; simpl; by rewrite Hprogress. }
  assert (length (guesses puzzle) < MAX_NUM_GUESSES) as Hlt.
  { unfold is_in_progress in Hprogress. destruct (won puzzle); [done|].
    by apply bool_decide_eq_true in Hprogress. }
  destruct (get_word_to_guess_finds (solution puzzle) constraints)
    as (wd & Hget & Hwd); [done..|].
  assert (valid_word WORD_LENGTH wd) as Hvalid.
  { rewrite Forall_forall in Hwords. by apply Hwords. }
  assert (valid_word WORD_LENGTH (solution puzzle)) as [Hsollen _].
  { rewrite Forall_forall in Hwords. by apply Hwords. }
  pose proof (enter_word_valid puzzle wd Hvalid Hlt) as Henter.
  set (guess := create_from_word wd (solution puzzle)) in *.
  set (puzzle' := mkPuzzle (solution puzzle) (guesses puzzle ++ [guess])) in *.
  destruct (is_correct guess) eqn:Hcorrect.
  { exists puzzle'. split; [|split].
    - intros [|fuel] Hfuel; [lia|]. simpl.
      by rewrite Hprogress, Hget, Henter, Hcorrect.
    - unfold is_in_progress, puzzle'. by rewrite won_snoc, Hcorrect.
    - unfold puzzle'. simpl. rewrite length_app. simpl. lia. }
  destruct (update_constraints_holds wd (solution puzzle) WORD_LENGTH
              (proj1 Hvalid) Hsollen constraints Hholds)
    as (constraints' & Hupdate & Hholds').
  fold guess in Hupdate.
  assert (Forall (in_range WORD_LENGTH) constraints') as Hrange'.
  { pose proof (update_loop_in_range guess WORD_LENGTH 0 (chars guess)
                  constraints) as Hr.
    unfold update_constraints in Hupdate. rewrite Hupdate in Hr.
    apply Hr; [|left; unfold WORD_LENGTH; lia|done].
    unfold guess. rewrite create_from_word_length. destruct Hvalid. lia. }
  destruct (IH puzzle' constraints') as (final & Hrun & Hstop & Hlen);
    [unfold puzzle'; simpl; rewrite length_app; simpl; lia|done..|].
  exists final. split; [|split; [done|]].
  - intros [|fuel] Hfuel; [lia|]. simpl.
    rewrite Hprogress, Hget, Henter, Hcorrect, Hupdate.
    apply Hrun. lia.
  - unfold puzzle' in Hlen. simpl in Hlen. rewrite length_app in Hlen.
    simpl in Hlen. lia.
Qed.

End Run.

(** C7. On a corpus of five-letter words over the alphabet and for a
    solution drawn from it, a run of [simulate] returns within
    [MAX_NUM_GUESSES] rounds, and no differently with more fuel; it has
    then entered at most [MAX_NUM_GUESSES] guesses, it reports a win
    exactly when the last guess is all green, and a loss exactly when
    [MAX_NUM_GUESSES] guesses are entered and the last one is not all
    green. *)
Theorem simulate_ends_won_or_lost `{SetOrder} (words : list word)
    (solution : word) :
  Forall (valid_word WORD_LENGTH) words →
  solution ∈ words →
  ∃ result num_guesses final,
    (∀ fuel, MAX_NUM_GUESSES ≤ fuel →
       simulate fuel words solution = Returned result num_guesses final)
    ∧ length (guesses final) ≤ MAX_NUM_GUESSES
    ∧ (result = true
       ↔ ∃ guess, last (guesses final) = Some guess
                  ∧ is_correct guess = true)
    ∧ (result = false
       ↔ length (guesses final) = MAX_NUM_GUESSES ∧ won final = false).
Proof.
  intros Hwords Hsol.
  destruct (simulate_loop_returns words Hwords MAX_NUM_GUESSES
              (mkPuzzle solution []) [])
    as (final & Hrun & Hstop & Hlen);
    [unfold MAX_NUM_GUESSES; simpl; lia|done|constructor..|].
  assert (length (guesses final) ≤ MAX_NUM_GUESSES) as Hmax.
  { etrans; [exact Hlen|]. unfold MAX_NUM_GUESSES. simpl. lia. }
  exists (won final),
    (if won final then Some (length (guesses final)) else None), final.
  split; [|split; [done|split]].
  - intros fuel Hfuel. unfold simulate. rewrite (Hrun fuel Hfuel).
    unfold report. by destruct (won final).
  - unfold won. destruct (last (guesses final)) as [g|]; split.
    + intros ?. by exists g.
    + by intros (? & [= <-] & ?).
    + done.
    + by intros (? & ? & ?).
  - unfold is_in_progress in Hstop. split.
    + intros Hlost. rewrite Hlost in Hstop.
      apply bool_decide_eq_false in Hstop. split; [lia|done].
    + by intros [_ ?].
Qed.

Lemma simulate_ends_won_or_lost_witness :
  Forall (valid_word WORD_LENGTH) [w "later"; w "piano"; w "boots"]
  ∧ w "piano" ∈ [w "later"; w "piano"; w "boots"]
  ∧ ∃ result num_guesses final,
      (∀ fuel, MAX_NUM_GUESSES ≤ fuel →
         @simulate elements_order fuel [w "later"; w "piano"; w "boots"]
           (w "piano")
         = Returned result num_guesses final)
      ∧ length (guesses final) ≤ MAX_NUM_GUESSES.
Proof.
  assert (Forall (valid_word WORD_LENGTH) [w "later"; w "piano"; w "boots"])
    as Hwords.
  { apply (bool_decide_unpack _). vm_compute. exact I. }
  assert (w "piano" ∈ [w "later"; w "piano"; w "boots"]) as Hsol.
  { apply (bool_decide_unpack _). vm_compute. exact I. }
  split; [exact Hwords|]. split; [exact Hsol|].
  destruct (@simulate_ends_won_or_lost elements_order
              [w "later"; w "piano"; w "boots"] (w "piano") Hwords Hsol)
    as (result & num_guesses & final & Hrun & Hlen & _).
  exists result, num_guesses, final. split; [exact Hrun|exact Hlen].
Defined.

(** The run of the witness: "later", then "piano". *)
Example simulate_later_piano :
  match @simulate elements_order MAX_NUM_GUESSES
          [w "later"; w "piano"; w "boots"] (w "piano") with
  | Returned result num_guesses final =>
      Some (result, num_guesses,
            (λ guess, letter <$> chars guess) <$> guesses final)
  | _ => None
  end
  = Some (true, Some 2, [w "later"; w "piano"]).
Proof. vm_compute. reflexivity. Qed.

Example get_word_to_guess_boots :
  @get_word_to_guess elements_order [w "later"; w "piano"; w "boots"]
    [mkConstraint "o" {[ 1 ]} IN_SOME_POSITION]
  = Ok (w "boots").
Proof. vm_compute. reflexivity. Qed.

(** Whatever the corpus and the solution, a guess budget of fuel is
    enough for the loop: it returns or raises. *)
Lemma enter_word_Ok self wd guess self' :
  enter_word self wd = (Ok guess, self') →
  guesses self' = guesses self ++ [guess].
Proof.
  unfold enter_word. repeat case_bool_decide; try done. by intros [= <- <-].
Qed.

Lemma report_not_OutOfFuel puzzle : report puzzle ≠ OutOfFuel.
Proof. unfold report. by destruct (won puzzle). Qed.

Lemma simulate_loop_has_fuel `{SetOrder} words fuel : ∀ puzzle constraints,
  MAX_NUM_GUESSES - length (guesses puzzle) ≤ fuel →
  simulate_loop fuel words puzzle constraints ≠ OutOfFuel.
Proof.
  induction fuel as [|fuel IH]; intros puzzle constraints Hfuel; simpl.
  { unfold is_in_progress. destruct (won puzzle);
      [apply report_not_OutOfFuel|].
    rewrite bool_decide_false by lia. apply report_not_OutOfFuel. }
  destruct (is_in_progress puzzle); [|apply report_not_OutOfFuel].
  destruct (get_word_to_guess words constraints) as [wd|]; [|done].
  destruct (enter_word puzzle wd) as [[guess|] puzzle'] eqn:Henter; [|done].
  destruct (is_correct guess); [apply report_not_OutOfFuel|].
  destruct (update_constraints constraints guess WORD_LENGTH); [|done].
  apply IH. rewrite (enter_word_Ok _ _ _ _ Henter), length_app. simpl. lia.
Qed.

(** * Further properties *)

(** ** The evaluator, in closed form *)

Lemma exact_matches_le wd solution c :
  exact_matches wd solution c ≤ Counter solution c.
Proof.
  unfold exact_matches, Counter. revert wd.
  induction solution as [|b sol IH]; intros [|a wd]; simpl;
    rewrite ?count_nil, ?count_cons; try lia.
  specialize (IH wd).
  destruct (decide (_ ∧ _)) as [[_ Hb]|_]; [|lia].
  simpl in Hb. rewrite decide_True by done. lia.
Qed.

Lemma misplaced_before_S wd solution c j a b :
  zip wd solution !! j = Some (a, b) →
  misplaced_before wd solution c (S j)
  = misplaced_before wd solution c j
    + (if decide (a = c ∧ b ≠ c) then 1 else 0).
Proof.
  intros Hj. unfold misplaced_before.
  rewrite (take_S_r _ _ _ Hj), count_app, count_cons, count_nil. simpl. lia.
Qed.

Lemma pass1_recognised wd solution c :
  count (recognised c) (pass1 wd solution) = exact_matches wd solution c.
Proof.
  unfold exact_matches, pass1. apply count_pointwise.
  { by rewrite length_fmap. }
  intros i x [a b]. rewrite list_lookup_fmap. intros Hx Hp.
  rewrite Hp in Hx. injection Hx as <-. unfold recognised, first_colour.
  simpl. repeat case_bool_decide; intuition congruence.
Qed.

(** The list that the second loop works on, after [k] rounds: each cell
    below [k] has the colour of Wordle, the others the colour of the first
    loop, and the recognised instances of a letter are its matches plus as
    many of its misplaced occurrences below [k] as the solution has room
    for. *)
Lemma pass2_upto_closed_form wd solution k :
  (∀ j a b, zip wd solution !! j = Some (a, b) →
     pass2_upto solution (pass1 wd solution) k !! j
     = Some (mkChar a
               (if decide (j < k) then Some (wordle_colour wd solution j a b)
                else first_colour solution a b)))
  ∧ ∀ c, count (recognised c) (pass2_upto solution (pass1 wd solution) k)
         = exact_matches wd solution c
           + misplaced_before wd solution c k
             `min` (Counter solution c - exact_matches wd solution c).
Proof.
  induction k as [|k [IHl IHc]].
  { split.
    - intros j a b [Ha Hb]%lookup_zip_Some. rewrite decide_False by lia.
      by apply pass1_lookup.
    - intros c. unfold pass2_upto. simpl. rewrite pass1_recognised.
      unfold misplaced_before.
      change (take 0 (zip wd solution)) with (@nil (ascii * ascii)).
      lia. }
  rewrite pass2_upto_S.
  set (cs := pass2_upto solution (pass1 wd solution) k) in *.
  destruct (zip wd solution !! k) as [[a b]|] eqn:Hk.
  2:{ (* beyond the end *)
    assert (cs !! k = None) as Hnone.
    { apply lookup_ge_None. apply lookup_ge_None in Hk.
      unfold cs, pass2_upto.
      assert (∀ l (acc : list Char),
        length (foldl (resolve solution) acc l) = length acc) as Hlen.
      { induction l as [|i l IH]; intros acc; simpl; [done|].
        rewrite IH. unfold resolve. destruct (acc !! i) as [ch|]; [|done].
        destruct (colour ch); [done|]. by rewrite length_insert. }
      rewrite Hlen, pass1_length. rewrite length_zip in Hk. lia. }
    unfold resolve. rewrite Hnone. split.
    - intros j a b Hj. rewrite (IHl j a b Hj).
      assert (j < k) by (apply lookup_lt_Some in Hj;
                         apply lookup_ge_None in Hk; lia).
      by rewrite !decide_True by lia.
    - intros c. rewrite IHc. unfold misplaced_before.
      apply lookup_ge_None in Hk. by rewrite !take_ge by lia. }
  pose proof (IHl k a b Hk) as Hck. rewrite decide_False in Hck by lia.
  pose proof (exact_matches_le wd solution a) as Hle.
  assert (∀ c, misplaced_before wd solution c (S k)
               = misplaced_before wd solution c k
                 + (if decide (a = c ∧ b ≠ c) then 1 else 0)) as HS.
  { intros c. by apply misplaced_before_S. }
  unfold resolve. rewrite Hck. simpl. unfold first_colour.
  case_bool_decide as Hab; simpl.
  { (* green already *)
    split.
    - intros j a' b' Hj. rewrite (IHl j a' b' Hj).
      destruct (decide (j = k)) as [->|Hne].
      + rewrite Hk in Hj. injection Hj as <- <-.
        rewrite decide_False, decide_True by lia.
        unfold first_colour, wordle_colour.
        by rewrite bool_decide_true, decide_True.
      + destruct (decide (j < k)), (decide (j < S k)); done || lia.
    - intros c. rewrite IHc, HS. rewrite decide_False by (subst; tauto). lia. }
  case_bool_decide as Hin; simpl.
  { (* grey already: the solution has no such letter *)
    assert (Counter solution a = 0) as HN.
    { destruct (Counter solution a) eqn:HC; [done|].
      destruct Hin. apply Counter_pos. lia. }
    split.
    - intros j a' b' Hj. rewrite (IHl j a' b' Hj).
      destruct (decide (j = k)) as [->|Hne].
      + rewrite Hk in Hj. injection Hj as <- <-.
        rewrite decide_False, decide_True by lia.
        unfold first_colour, wordle_colour.
        rewrite bool_decide_false, bool_decide_true, decide_False by done.
        by rewrite decide_False by lia.
      + destruct (decide (j < k)), (decide (j < S k)); done || lia.
    - intros c. rewrite IHc, HS. destruct (decide (a = c ∧ b ≠ c)) as [[<- _]|_];
        lia. }
  (* the cell is open: this round colours it *)
  assert (first_colour solution a b = None) as Hopen.
  { unfold first_colour. rewrite bool_decide_false by done.
    rewrite bool_decide_false; [done|]. by intros ?. }
  rewrite Hopen in Hck. rewrite (IHc a).
  assert (bool_decide
            (exact_matches wd solution a
             + misplaced_before wd solution a k
               `min` (Counter solution a - exact_matches wd solution a)
             < Counter solution a)
          = bool_decide (exact_matches wd solution a
                         + misplaced_before wd solution a k
                         < Counter solution a)) as ->.
  { apply bool_decide_ext. lia. }
  split.
  - intros j a' b' Hj. destruct (decide (j = k)) as [->|Hne].
    + rewrite Hk in Hj. injection Hj as <- <-.
      rewrite list_lookup_insert_eq by (by eapply lookup_lt_Some).
      rewrite decide_True by lia. unfold wordle_colour.
      rewrite decide_False by done. by case_bool_decide; case_decide.
    + rewrite list_lookup_insert_ne by done. rewrite (IHl j a' b' Hj).
      destruct (decide (j < k)), (decide (j < S k)); done || lia.
  - intros c.
    pose proof (count_insert (recognised c) cs k
      (mkChar a
         (Some (if bool_decide (exact_matches wd solution a
                                + misplaced_before wd solution a k
                                < Counter solution a)
                then YELLOW else GREY)))
      (mkChar a None) Hck) as Hins.
    rewrite (decide_False (P := recognised c (mkChar a None))) in Hins
      by (intros [_ [?|?]]; simpl in *; congruence).
    rewrite (IHc c) in Hins. rewrite HS.
    pose proof (exact_matches_le wd solution c).
    case_bool_decide as Hy.
    + destruct (decide (recognised c _)) as [[Hl _]|Hn] in Hins.
      * simpl in Hl. subst c. rewrite decide_True by done. lia.
      * rewrite decide_False; [lia|]. intros [-> _]. apply Hn.
        split; [done|by right].
    + rewrite decide_False in Hins
        by (intros [_ [?|?]]; simpl in *; congruence).
      destruct (decide (a = c ∧ b ≠ c)) as [[<- _]|_]; lia.
Qed.

(** X1. The colour of every position of an evaluated guess is the colour
    of Wordle: green on a match; otherwise yellow when the matches of the
    letter plus its misplaced occurrences further left are fewer than its
    occurrences in the solution; otherwise grey. *)
Theorem create_from_word_wordle_colour (wd solution : word) (j : nat)
    (a b : ascii) :
  wd !! j = Some a → solution !! j = Some b →
  chars (create_from_word wd solution) !! j
  = Some (mkChar a (Some (wordle_colour wd solution j a b))).
Proof.
  intros Ha Hb. simpl. unfold pass2.
  destruct (pass2_upto_closed_form wd solution (length (pass1 wd solution)))
    as [Hl _].
  rewrite (Hl j a b) by (by apply lookup_zip_Some).
  rewrite decide_True; [done|].
  rewrite pass1_length. apply lookup_lt_Some in Ha, Hb. lia.
Qed.

Lemma create_from_word_wordle_colour_witness :
  w "boots" !! 2 = Some "o"%char ∧ w "piano" !! 2 = Some "a"%char
  ∧ chars (create_from_word (w "boots") (w "piano")) !! 2
    = Some (mkChar "o"
              (Some (wordle_colour (w "boots") (w "piano") 2 "o" "a")))
  ∧ wordle_colour (w "boots") (w "piano") 2 "o" "a" = GREY.
Proof.
  split; [reflexivity|]. split; [reflexivity|]. split.
  - apply (create_from_word_wordle_colour (w "boots") (w "piano") 2
             "o"%char "a"%char); reflexivity.
  - vm_compute. reflexivity.
Defined.

Lemma count_fst_zip (wd solution : word) c :
  count (λ p : ascii * ascii, p.1 = c) (zip wd solution)
  = Counter (take (length solution) wd) c.
Proof.
  unfold Counter. revert solution.
  induction wd as [|a wd IH]; intros [|b sol]; simpl;
    rewrite ?count_nil, ?count_cons; try done.
  by rewrite IH.
Qed.

Lemma count_matches_misplaced (z : list (ascii * ascii)) c :
  count (λ p, p.1 = c ∧ p.2 = c) z + count (λ p, p.1 = c ∧ p.2 ≠ c) z
  = count (λ p, p.1 = c) z.
Proof.
  induction z as [|[a b] z IH]; [done|]. rewrite !count_cons.
  repeat case_decide; simpl in *; try lia; exfalso;
    destruct (decide (b = c)); tauto.
Qed.

(** X2. The cap on a letter is reached whenever the guess allows: the
    green and yellow cells that carry [c] are as many as the smaller of
    the occurrences of [c] in the evaluated part of the guess and in the
    solution. *)
Theorem recognised_is_min (wd solution : word) (c : ascii) :
  count (recognised c) (chars (create_from_word wd solution))
  = Counter (take (length solution) wd) c `min` Counter solution c.
Proof.
  simpl. unfold pass2.
  destruct (pass2_upto_closed_form wd solution (length (pass1 wd solution)))
    as [_ Hc].
  rewrite Hc, <- count_fst_zip, <- count_matches_misplaced.
  pose proof (exact_matches_le wd solution c).
  unfold misplaced_before. rewrite take_ge.
  - unfold exact_matches in *. lia.
  - unfold pass1. by rewrite length_fmap.
Qed.

(** X3. An evaluated guess spells the guess word as far as the solution
    reaches, and none of its characters is left without a colour. *)
Theorem create_from_word_shape (wd solution : word) :
  letter <$> chars (create_from_word wd solution)
  = take (length solution) wd
  ∧ Forall (λ ch, is_Some (colour ch)) (chars (create_from_word wd solution)).
Proof.
  pose proof (create_from_word_length solution wd) as Hlen. split.
  - apply list_eq_same_length with (length wd `min` length solution).
    + rewrite length_take. lia.
    + by rewrite length_fmap.
    + intros i x y Hi. rewrite list_lookup_fmap, lookup_take_lt by lia.
      intros Hx Hy.
      destruct (lookup_lt_is_Some_2 solution i) as [b Hb]; [lia|].
      destruct (create_from_word_lookup solution wd i y b Hy Hb)
        as (col & Hcol & _).
      rewrite Hcol in Hx. by injection Hx.
  - apply Forall_lookup. intros i ch Hch.
    assert (i < length wd `min` length solution) as Hi.
    { rewrite <- Hlen. by eapply lookup_lt_Some. }
    destruct (lookup_lt_is_Some_2 wd i) as [a Ha]; [lia|].
    destruct (lookup_lt_is_Some_2 solution i) as [b Hb]; [lia|].
    destruct (create_from_word_lookup solution wd i a b Ha Hb)
      as (col & Hcol & _).
    rewrite Hch in Hcol. injection Hcol as ->. by eexists.
Qed.

(** X4. An evaluated guess is correct exactly when the two words agree
    on their common length; a word that is a proper prefix of the solution
    is thus correct, as is the empty word. *)
Theorem is_correct_iff_common_prefix (wd solution : word) :
  is_correct (create_from_word wd solution) = true
  ↔ take (length solution) wd = take (length wd) solution.
Proof.
  unfold is_correct.
  rewrite <- Is_true_true, forallb_True, Forall_lookup. split.
  - intros Hall.
    apply list_eq_same_length with (length wd `min` length solution).
    + rewrite length_take. lia.
    + rewrite length_take. lia.
    + intros i a b Hi. rewrite !lookup_take_lt by lia. intros Ha Hb.
      destruct (create_from_word_lookup solution wd i a b Ha Hb)
        as (col & Hcol & Hcase).
      apply Hall in Hcol. apply bool_decide_unpack in Hcol. simpl in Hcol.
      injection Hcol as ->. done.
  - intros Heq i ch Hch. apply bool_decide_pack.
    assert (i < length wd `min` length solution) as Hi.
    { rewrite <- create_from_word_length. by eapply lookup_lt_Some. }
    destruct (lookup_lt_is_Some_2 wd i) as [a Ha]; [lia|].
    destruct (lookup_lt_is_Some_2 solution i) as [b Hb]; [lia|].
    assert (a = b) as <-.
    { assert (take (length solution) wd !! i = Some a) as Hta
        by (by rewrite lookup_take_lt by lia).
      rewrite Heq, lookup_take_lt in Hta by lia. congruence. }
    destruct (create_from_word_lookup solution wd i a a Ha Hb)
      as (col & Hcol & Hcase).
    rewrite Hch in Hcol. injection Hcol as ->. simpl.
    destruct col; intuition congruence.
Qed.

(** ** Entering words *)

(** The characters that [enter_word] lets through are the letters. *)
Lemma lower_char_letter c : lower_char c ∈ ALL_CHARS ↔ is_letter c.
Proof.
  assert (bool_decide (lower_char c ∈ ALL_CHARS) = bool_decide (is_letter c))
    as Heq.
  { destruct c as [[] [] [] [] [] [] [] []]; vm_compute; reflexivity. }
  split; intros Hc.
  - apply (bool_decide_unpack _). rewrite <- Heq. by apply bool_decide_pack.
  - apply (bool_decide_unpack _). rewrite Heq. by apply bool_decide_pack.
Qed.

Lemma unknown_chars_empty wd :
  (list_to_set (lower wd) ∖ ALL_CHARS : gset ascii) = ∅ ↔ Forall is_letter wd.
Proof.
  rewrite Forall_forall. split.
  - intros Hempty c Hc. apply lower_char_letter.
    destruct (decide (lower_char c ∈ ALL_CHARS)) as [|Hn]; [done|].
    assert (lower_char c ∈ (list_to_set (lower wd) ∖ ALL_CHARS : gset ascii))
      as Hin.
    { apply elem_of_difference. split; [|done].
      apply elem_of_list_to_set, list_elem_of_fmap. by exists c. }
    rewrite Hempty in Hin. by apply not_elem_of_empty in Hin.
  - intros Hall. apply set_eq. intros c.
    rewrite elem_of_difference, elem_of_list_to_set.
    split; [|by intros ?%not_elem_of_empty].
    intros [(x & -> & Hx)%list_elem_of_fmap Hn]. destruct Hn.
    by apply lower_char_letter, Hall.
Qed.

(** X5. While the guess budget lasts, [enter_word] accepts a word of
    [WORD_LENGTH] characters, all of them from U+0000 to U+00FF as the
    characters are here, exactly when all of them are letters A..Z or
    a..z: it then evaluates the word in lower case and appends that one
    guess; otherwise it raises for the unknown characters and leaves the
    puzzle as it was.  (The lower case of an accented capital of Latin-1
    is not among a..z, so that such a word is refused as well.) *)
Theorem enter_word_accepts_letters (self : Puzzle) (wd : word) :
  length (guesses self) < MAX_NUM_GUESSES →
  length wd = WORD_LENGTH →
  (Forall is_letter wd →
     enter_word self wd
     = (Ok (create_from_word (lower wd) (solution self)),
        mkPuzzle (solution self)
          (guesses self ++ [create_from_word (lower wd) (solution self)])))
  ∧ (¬ Forall is_letter wd →
     enter_word self wd = (Raise UnknownCharacters, self)).
Proof.
  intros Hbudget Hlen. unfold enter_word.
  rewrite bool_decide_false by lia.
  rewrite bool_decide_false by (by intros ?).
  split; intros Hletters.
  - rewrite bool_decide_false; [done|].
    intros Hne. apply Hne. by apply unknown_chars_empty.
  - rewrite bool_decide_true; [done|].
    intros Hempty. by apply Hletters, unknown_chars_empty.
Qed.

Lemma enter_word_accepts_letters_witness :
  length (guesses (mkPuzzle (w "piano") [])) < MAX_NUM_GUESSES
  ∧ length (w "LaTer") = WORD_LENGTH
  ∧ Forall is_letter (w "LaTer")
  ∧ enter_word (mkPuzzle (w "piano") []) (w "LaTer")
    = (Ok (create_from_word (lower (w "LaTer")) (w "piano")),
       mkPuzzle (w "piano")
         [create_from_word (lower (w "LaTer")) (w "piano")])
  ∧ lower (w "LaTer") = w "later".
Proof.
  assert (length (guesses (mkPuzzle (w "piano") [])) < MAX_NUM_GUESSES)
    as Hbudget by (vm_compute; lia).
  assert (length (w "LaTer") = WORD_LENGTH) as Hlen by reflexivity.
  assert (Forall is_letter (w "LaTer")) as Hletters.
  { apply (bool_decide_unpack _). vm_compute. exact I. }
  split; [exact Hbudget|]. split; [exact Hlen|]. split; [exact Hletters|].
  split; [|reflexivity].
  exact (proj1 (enter_word_accepts_letters (mkPuzzle (w "piano") [])
                  (w "LaTer") Hbudget Hlen) Hletters).
Defined.

Lemma enter_word_inv self wd r self' :
  enter_word self wd = (r, self') →
  (∃ e, r = Raise e ∧ self' = self)
  ∨ (length (guesses self) < MAX_NUM_GUESSES ∧ length wd = WORD_LENGTH
     ∧ Forall is_letter wd
     ∧ r = Ok (create_from_word (lower wd) (solution self))
     ∧ self' = mkPuzzle (solution self)
                 (guesses self
                  ++ [create_from_word (lower wd) (solution self)])).
Proof.
  unfold enter_word.
  case_bool_decide as Hfull; [intros [= <- <-]; left; by eexists|].
  case_bool_decide as Hlen; [intros [= <- <-]; left; by eexists|].
  case_bool_decide as Hunknown; [intros [= <- <-]; left; by eexists|].
  intros [= <- <-]. right. split; [lia|]. split; [done|].
  split; [by apply unknown_chars_empty|done].
Qed.

(** X6. Whatever the word, a call of [enter_word] keeps the solution, a
    call that raises leaves the whole puzzle as it was, a call that
    returns has appended the returned guess and nothing else, and the
    history of a puzzle within the guess budget stays within it. *)
Theorem enter_word_frame (self : Puzzle) (wd : word) (r : result Guess)
    (self' : Puzzle) :
  enter_word self wd = (r, self') →
  solution self' = solution self
  ∧ (∀ e, r = Raise e → self' = self)
  ∧ (∀ guess, r = Ok guess → guesses self' = guesses self ++ [guess])
  ∧ (length (guesses self) ≤ MAX_NUM_GUESSES →
     length (guesses self') ≤ MAX_NUM_GUESSES).
Proof.
  intros [(e & -> & ->)|(Hbudget & _ & _ & -> & ->)]%enter_word_inv.
  - repeat split; [done..|by intros ? [=]|done].
  - repeat split; simpl; [by intros ? [=]|by intros ? [= <-]|].
    intros _. rewrite length_app. simpl. lia.
Qed.

Lemma enter_word_frame_witness :
  enter_word (mkPuzzle (w "piano") []) (w "later")
  = (Ok (create_from_word (w "later") (w "piano")),
     mkPuzzle (w "piano") [create_from_word (w "later") (w "piano")])
  ∧ length (guesses (mkPuzzle (w "piano")
                       [create_from_word (w "later") (w "piano")]))
    ≤ MAX_NUM_GUESSES.
Proof.
  assert (enter_word (mkPuzzle (w "piano") []) (w "later")
          = (Ok (create_from_word (w "later") (w "piano")),
             mkPuzzle (w "piano") [create_from_word (w "later") (w "piano")]))
    as Hcall by (vm_compute; reflexivity).
  split; [exact Hcall|].
  apply (enter_word_frame _ _ _ _ Hcall). vm_compute; lia.
Defined.

(** X7. After a call of [enter_word] that returns, on a puzzle whose
    solution has [WORD_LENGTH] letters, the puzzle is won exactly when the
    word, in lower case, is the solution; the history before the call does
    not matter, so that a wrong word entered after a win undoes it. *)
Theorem won_after_enter_word (self : Puzzle) (wd : word) (guess : Guess)
    (self' : Puzzle) :
  length (solution self) = WORD_LENGTH →
  enter_word self wd = (Ok guess, self') →
  won self' = true ↔ lower wd = solution self.
Proof.
  intros Hsol [(e & [=] & _)|(_ & Hlen & _ & [= ->] & ->)]%enter_word_inv.
  rewrite won_snoc. apply create_from_word_is_correct.
  unfold lower. rewrite length_fmap. congruence.
Qed.

Lemma won_after_enter_word_witness :
  length (solution (mkPuzzle (w "piano")
                      [create_from_word (w "piano") (w "piano")]))
  = WORD_LENGTH
  ∧ won (mkPuzzle (w "piano") [create_from_word (w "piano") (w "piano")])
    = true
  ∧ enter_word
      (mkPuzzle (w "piano") [create_from_word (w "piano") (w "piano")])
      (w "later")
    = (Ok (create_from_word (w "later") (w "piano")),
       mkPuzzle (w "piano")
         [create_from_word (w "piano") (w "piano");
          create_from_word (w "later") (w "piano")])
  ∧ (won (mkPuzzle (w "piano")
            [create_from_word (w "piano") (w "piano");
             create_from_word (w "later") (w "piano")]) = true
     ↔ lower (w "later") = w "piano").
Proof.
  assert (enter_word
            (mkPuzzle (w "piano") [create_from_word (w "piano") (w "piano")])
            (w "later")
          = (Ok (create_from_word (w "later") (w "piano")),
             mkPuzzle (w "piano")
               [create_from_word (w "piano") (w "piano");
                create_from_word (w "later") (w "piano")])) as Hcall
    by (vm_compute; reflexivity).
  split; [reflexivity|]. split; [vm_compute; reflexivity|].
  split; [exact Hcall|].
  apply (won_after_enter_word
           (mkPuzzle (w "piano") [create_from_word (w "piano") (w "piano")])
           (w "later") (create_from_word (w "later") (w "piano"))).
  - reflexivity.
  - exact Hcall.
Defined.

(** ** Satisfaction, whatever the order of the positions *)

Lemma any_at_raise wd c ps e :
  any_at wd c ps = Raise e →
  e = IndexError ∧ ∃ p, p ∈ ps ∧ length wd ≤ p.
Proof.
  induction ps as [|p ps IH]; simpl; [done|].
  destruct (wd !! p) as [x|] eqn:Hp.
  - case_bool_decide; [done|].
    intros [-> (q & ? & ?)]%IH. split; [done|]. exists q. split; [by right|done].
  - intros [= <-]. split; [done|]. exists p. split; [by left|].
    by apply lookup_ge_None.
Qed.

Lemma any_at_false_in_range wd c ps :
  any_at wd c ps = Ok false → ∀ p, p ∈ ps → p < length wd.
Proof.
  induction ps as [|q ps IH]; simpl; [by intros _ p ?%elem_of_nil|].
  destruct (wd !! q) as [x|] eqn:Hq; [|done].
  case_bool_decide; [done|].
  intros Hrest p [->|Hp]%elem_of_cons; [by eapply lookup_lt_Some|by apply IH].
Qed.

Lemma any_at_miss wd c ps :
  (∃ p, p ∈ ps ∧ length wd ≤ p) →
  (∀ p, p ∈ ps → wd !! p ≠ Some c) →
  any_at wd c ps = Raise IndexError.
Proof.
  intros (p & Hp & Hlen) Hmiss.
  destruct (any_at wd c ps) as [[]|e] eqn:Hany.
  - apply any_at_true in Hany as (q & Hq & Hhit). by destruct (Hmiss q).
  - pose proof (any_at_false_in_range _ _ _ Hany p Hp). lia.
  - by apply any_at_raise in Hany as [-> _].
Qed.

(** X8. When the positions of a constraint are positions of the word,
    [is_satisfied] returns, in whatever order it visits the positions,
    whether the constraint holds of the word: for [IN_SOME_POSITION] that
    the letter is at one of the positions, for [NOT_IN_POSITIONS] that it
    is at none of them. *)
Theorem is_satisfied_decides `{SetOrder} (c : Constraint) (wd : word) :
  below (length wd) c →
  ∃ b, is_satisfied c wd = Ok b ∧ (b = true ↔ holds c wd).
Proof.
  intros Hc.
  destruct (is_satisfied_in_range (length wd) c wd Hc eq_refl) as [b Hb].
  exists b. split; [done|]. by apply is_satisfied_holds.
Qed.

Lemma is_satisfied_decides_witness :
  below (length (w "boots")) (mkConstraint "o" {[ 1; 4 ]} IN_SOME_POSITION)
  ∧ ∃ b, @is_satisfied elements_order
           (mkConstraint "o" {[ 1; 4 ]} IN_SOME_POSITION) (w "boots") = Ok b
         ∧ (b = true
            ↔ holds (mkConstraint "o" {[ 1; 4 ]} IN_SOME_POSITION)
                (w "boots")).
Proof.
  assert (below (length (w "boots"))
            (mkConstraint "o" {[ 1; 4 ]} IN_SOME_POSITION)) as Hc.
  { apply (bool_decide_unpack _). vm_compute. exact I. }
  split; [exact Hc|].
  exact (@is_satisfied_decides elements_order _ (w "boots") Hc).
Defined.

(** X9. [is_satisfied] raises nothing but [IndexError], and only for a
    constraint with a position beyond the end of the word; it does raise,
    in whatever order it visits the positions, when there is such a
    position and the letter is at none of the positions. *)
Theorem is_satisfied_index_error `{SetOrder} (c : Constraint) (wd : word) :
  (∀ e, is_satisfied c wd = Raise e →
     e = IndexError ∧ ∃ p, p ∈ positions c ∧ length wd ≤ p)
  ∧ ((∃ p, p ∈ positions c ∧ length wd ≤ p) →
     (∀ p, p ∈ positions c → wd !! p ≠ Some (char c)) →
     is_satisfied c wd = Raise IndexError).
Proof.
  unfold is_satisfied. split.
  - intros e.
    destruct (any_at wd (char c) (iter (positions c))) as [a|e'] eqn:Hany;
      simpl.
    { by destruct (type c). }
    intros [= <-]. apply any_at_raise in Hany as [-> (p & Hp & Hlen)].
    split; [done|]. exists p. split; [by apply elem_of_iter|done].
  - intros (p & Hp & Hlen) Hmiss.
    rewrite (any_at_miss wd (char c) (iter (positions c))); [done|..].
    + exists p. split; [by apply elem_of_iter|done].
    + intros q Hq%elem_of_iter. by apply Hmiss.
Qed.

Lemma is_satisfied_index_error_witness :
  (∃ p, p ∈ positions (mkConstraint "a" {[ 0; 5 ]} NOT_IN_POSITIONS)
        ∧ length (w "boots") ≤ p)
  ∧ @is_satisfied elements_order
      (mkConstraint "a" {[ 0; 5 ]} NOT_IN_POSITIONS) (w "boots")
    = Raise IndexError.
Proof.
  assert (∃ p, p ∈ positions (mkConstraint "a" {[ 0; 5 ]} NOT_IN_POSITIONS)
               ∧ length (w "boots") ≤ p) as Hout.
  { exists 5. split; [|vm_compute; lia].
    apply (bool_decide_unpack _). vm_compute. exact I. }
  split; [exact Hout|].
  apply (proj2 (@is_satisfied_index_error elements_order
                  (mkConstraint "a" {[ 0; 5 ]} NOT_IN_POSITIONS)
                  (w "boots")) Hout).
  intros p Hp. simpl in Hp.
  apply elem_of_union in Hp as [->%elem_of_singleton| ->%elem_of_singleton];
    vm_compute; congruence.
Defined.

(** ** The frequency score, letter by letter *)

Lemma CHAR_TO_FREQUENCY_dom c :
  is_Some (CHAR_TO_FREQUENCY !! c) ↔ c ∈ ALL_CHARS.
Proof.
  assert (bool_decide (is_Some (CHAR_TO_FREQUENCY !! c))
          = bool_decide (c ∈ ALL_CHARS)) as Heq.
  { destruct c as [[] [] [] [] [] [] [] []]; vm_compute; reflexivity. }
  split; intros Hc.
  - apply (bool_decide_unpack _). rewrite <- Heq. by apply bool_decide_pack.
  - apply (bool_decide_unpack _). rewrite Heq. by apply bool_decide_pack.
Qed.

Lemma sum_frequencies_Ok acc l :
  (∃ s, sum_frequencies acc l = Ok s) ↔ Forall (λ c, c ∈ ALL_CHARS) l.
Proof.
  revert acc. induction l as [|c l IH]; intros acc; cbn [sum_frequencies].
  { split; [constructor|by eexists]. }
  rewrite Forall_cons, <- CHAR_TO_FREQUENCY_dom.
  destruct (CHAR_TO_FREQUENCY !! c) as [f|].
  - rewrite IH. split; [by split|by intros [_ ?]].
  - split; [by intros [? ?]|by intros [[? ?] _]].
Qed.

Lemma sum_frequencies_Raise acc l e :
  sum_frequencies acc l = Raise e → e = KeyError.
Proof.
  revert acc. induction l as [|c l IH]; intros acc; cbn [sum_frequencies];
    [done|].
  destruct (CHAR_TO_FREQUENCY !! c); [apply IH|by intros [= <-]].
Qed.

(** X10. [get_frequency_score] returns a score exactly for the words all
    of whose characters are lower case letters of the alphabet, the empty
    word among them; for every other word it raises [KeyError]. *)
Theorem get_frequency_score_KeyError `{SetOrder} (wd : word) :
  ((∃ s, get_frequency_score wd = Ok s) ↔ Forall (λ c, c ∈ ALL_CHARS) wd)
  ∧ (∀ e, get_frequency_score wd = Raise e → e = KeyError).
Proof.
  unfold get_frequency_score. split; [|apply sum_frequencies_Raise].
  rewrite sum_frequencies_Ok, !Forall_forall.
  split; intros Hall c Hc; apply Hall.
  - by apply (elem_of_iter_set wd c).
  - by apply (elem_of_iter_set wd c) in Hc.
Qed.

Lemma get_frequency_score_KeyError_witness :
  (∃ s, @get_frequency_score elements_order (w "later") = Ok s)
  ∧ @get_frequency_score elements_order (w "Later") = Raise KeyError.
Proof.
  split.
  - apply (@get_frequency_score_KeyError elements_order (w "later")).
    apply (bool_decide_unpack _). vm_compute. exact I.
  - destruct (@get_frequency_score elements_order (w "Later")) as [s|e]
      eqn:Hscore; [vm_compute in Hscore; discriminate|].
    f_equal.
    exact (proj2 (@get_frequency_score_KeyError elements_order (w "Later"))
             e Hscore).
Defined.

(** A score is a zero, a positive float or plus infinity, never a NaN, so
    that [max] compares the scores in a total order. *)
Lemma sum_frequencies_nonnegative acc l s :
  nonnegative acc → sum_frequencies acc l = Ok s → nonnegative s.
Proof.
  revert acc. induction l as [|c l IH]; intros acc Hacc;
    cbn [sum_frequencies]; [by intros [= <-]|].
  destruct (CHAR_TO_FREQUENCY !! c) as [f|] eqn:Hc; [|done].
  apply IH, add_nonnegative; [done|].
  apply (weight_positive c). unfold weight. by rewrite Hc.
Qed.

Lemma get_frequency_score_nonnegative `{SetOrder} wd s :
  get_frequency_score wd = Ok s → nonnegative s.
Proof. by apply sum_frequencies_nonnegative. Qed.

(** X11. A score that [get_frequency_score] returns is never a NaN and
    never below zero, so that any two scores compare as in a total order:
    one is less than the other exactly when the other is not at most the
    one.  The choice of [max] therefore never hangs on a comparison with
    a NaN. *)
Theorem get_frequency_score_comparable `{SetOrder} (wd wd' : word)
    (s s' : float) :
  get_frequency_score wd = Ok s → get_frequency_score wd' = Ok s' →
  (0 <=? s)%float = true
  ∧ (s <? s')%float = negb (s' <=? s)%float.
Proof.
  intros Hs%get_frequency_score_nonnegative
    Hs'%get_frequency_score_nonnegative.
  split; [by apply leb_zero|by apply ltb_negb_leb].
Qed.

Lemma get_frequency_score_comparable_witness :
  @get_frequency_score observed_order (w "alert")
  = Ok 0.36069999999999997%float
  ∧ @get_frequency_score observed_order (w "later") = Ok 0.3607%float
  ∧ (0 <=? 0.36069999999999997)%float = true
  ∧ (0.36069999999999997 <? 0.3607)%float
    = negb (0.3607 <=? 0.36069999999999997)%float.
Proof.
  assert (@get_frequency_score observed_order (w "alert")
          = Ok 0.36069999999999997%float) as Halert
    by (vm_compute; reflexivity).
  assert (@get_frequency_score observed_order (w "later") = Ok 0.3607%float)
    as Hlater by (vm_compute; reflexivity).
  split; [exact Halert|]. split; [exact Hlater|].
  exact (@get_frequency_score_comparable observed_order _ _ _ _
           Halert Hlater).
Defined.

(** ** Which word the selector picks *)

Section Choice.
Context `{SetOrder}.

Lemma filter_words_filter words constraints kept :
  filter_words words constraints = Ok kept →
  kept = filter (λ x, all_satisfied constraints x = Ok true) words.
Proof.
  revert kept. induction words as [|x words IH]; intros kept; simpl.
  { by intros [= <-]. }
  destruct (all_satisfied constraints x) as [keep|] eqn:Hx; simpl; [|done].
  destruct (filter_words words constraints) as [rest|]; simpl; [|done].
  intros [= <-]. rewrite filter_cons, Hx, (IH rest eq_refl).
  destruct keep; [by rewrite decide_True|by rewrite decide_False].
Qed.

(** [max] keeps the first of the items with the greatest key. *)
Lemma max_from_first_best words : ∀ best key pre post x,
  get_frequency_score best = Ok key →
  (∀ y, y ∈ pre →
     ∃ k, get_frequency_score y = Ok k ∧ (k <? key)%float = true) →
  (∀ y, y ∈ post →
     ∃ k, get_frequency_score y = Ok k ∧ (k <=? key)%float = true) →
  max_from best key words = Ok x →
  ∃ pre' post' s,
    pre ++ best :: post ++ words = pre' ++ x :: post'
    ∧ get_frequency_score x = Ok s
    ∧ (∀ y, y ∈ pre' →
         ∃ k, get_frequency_score y = Ok k ∧ (k <? s)%float = true)
    ∧ (∀ y, y ∈ post' →
         ∃ k, get_frequency_score y = Ok k ∧ (k <=? s)%float = true).
Proof.
  induction words as [|wd words IH]; intros best key pre post x Hbest Hpre
    Hpost; simpl.
  { intros [= <-]. exists pre, post, key. by rewrite app_nil_r. }
  destruct (get_frequency_score wd) as [k|] eqn:Hwd; simpl; [|done].
  pose proof (get_frequency_score_nonnegative _ _ Hbest) as Hkey.
  pose proof (get_frequency_score_nonnegative _ _ Hwd) as Hk.
  destruct (key <? k)%float eqn:Hlt.
  - intros Hmax.
    destruct (IH wd k (pre ++ best :: post) [] x Hwd) as
      (pre' & post' & s & Heq & ?); [| |done|].
    { intros y [Hy|[->|Hy]%elem_of_cons]%elem_of_app.
      - destruct (Hpre y Hy) as (ky & Hy' & ?). exists ky.
        split; [done|].
        by apply (ltb_trans ky key k);
          [eapply get_frequency_score_nonnegative|..].
      - by exists key.
      - destruct (Hpost y Hy) as (ky & Hy' & ?). exists ky.
        split; [done|].
        by apply (leb_ltb_trans ky key k);
          [eapply get_frequency_score_nonnegative|..]. }
    { by intros y ?%elem_of_nil. }
    exists pre', post', s. split; [|done].
    by rewrite <- Heq, <- !app_assoc.
  - intros Hmax.
    destruct (IH best key pre (post ++ [wd]) x Hbest Hpre) as
      (pre' & post' & s & Heq & ?); [|done|].
    { intros y [Hy| ->%list_elem_of_singleton]%elem_of_app; [by apply Hpost|].
      exists k. split; [done|]. by apply ltb_false_leb. }
    exists pre', post', s. split; [|done].
    by rewrite <- Heq, <- !app_assoc.
Qed.

End Choice.

(** X12. The word that [get_word_to_guess] returns is, among the words
    of the list that satisfy every constraint and in the order of the
    list, the first one with the greatest frequency score, by the
    comparison of floats that [max] makes: the candidates before it score
    strictly less, those after it at most as much. *)
Theorem get_word_to_guess_first_best `{SetOrder} (words : list word)
    (constraints : list Constraint) (wd : word) :
  get_word_to_guess words constraints = Ok wd →
  ∃ pre post s,
    filter (λ x, all_satisfied constraints x = Ok true) words
    = pre ++ wd :: post
    ∧ get_frequency_score wd = Ok s
    ∧ (∀ y, y ∈ pre →
         ∃ k, get_frequency_score y = Ok k ∧ (k <? s)%float = true)
    ∧ (∀ y, y ∈ post →
         ∃ k, get_frequency_score y = Ok k ∧ (k <=? s)%float = true).
Proof.
  unfold get_word_to_guess.
  destruct (filter_words words constraints) as [kept|] eqn:Hkept; simpl;
    [|done].
  rewrite <- (filter_words_filter _ _ _ Hkept).
  destruct kept as [|x kept]; simpl; [done|].
  destruct (get_frequency_score x) as [k|] eqn:Hx; simpl; [|done].
  intros Hmax.
  destruct (max_from_first_best kept x k [] [] wd Hx) as
    (pre & post & s & Heq & ?); [by intros ? ?%elem_of_nil..|done|].
  exists pre, post, s. by split.
Qed.

Lemma get_word_to_guess_first_best_witness :
  @get_word_to_guess observed_order [w "boots"; w "alert"; w "later"] []
  = Ok (w "later")
  ∧ ∃ pre post s,
      filter (λ x, @all_satisfied observed_order [] x = Ok true)
        [w "boots"; w "alert"; w "later"]
      = pre ++ w "later" :: post
      ∧ @get_frequency_score observed_order (w "later") = Ok s
      ∧ (∀ y, y ∈ pre →
           ∃ k, @get_frequency_score observed_order y = Ok k
                ∧ (k <? s)%float = true)
      ∧ (∀ y, y ∈ post →
           ∃ k, @get_frequency_score observed_order y = Ok k
                ∧ (k <=? s)%float = true).
Proof.
  assert (@get_word_to_guess observed_order
            [w "boots"; w "alert"; w "later"] [] = Ok (w "later")) as Hget
    by (vm_compute; reflexivity).
  split; [exact Hget|].
  exact (@get_word_to_guess_first_best observed_order _ _ _ Hget).
Defined.

Section ConstraintOrder.
Context `{SetOrder}.

Lemma all_satisfied_perm L constraints constraints' wd :
  Forall (below L) constraints → length wd = L →
  constraints ≡ₚ constraints' →
  all_satisfied constraints wd = all_satisfied constraints' wd.
Proof.
  intros Hcs Hwd Hperm.
  assert (Forall (below L) constraints') as Hcs' by (by rewrite <- Hperm).
  destruct (all_satisfied_total L constraints wd Hcs Hwd) as [b Hb].
  destruct (all_satisfied_total L constraints' wd Hcs' Hwd) as [b' Hb'].
  rewrite Hb, Hb'. f_equal.
  pose proof (all_satisfied_true constraints wd) as Ht.
  pose proof (all_satisfied_true constraints' wd) as Ht'.
  rewrite Hb in Ht. rewrite Hb' in Ht'. rewrite Hperm in Ht.
  destruct b, b'; try done.
  - assert (Ok false = Ok true :> result bool); [|done].
    apply Ht'. by apply Ht.
  - assert (Ok false = Ok true :> result bool); [|done].
    apply Ht. by apply Ht'.
Qed.

Lemma filter_words_perm L words constraints constraints' :
  Forall (valid_word L) words → Forall (below L) constraints →
  constraints ≡ₚ constraints' →
  filter_words words constraints = filter_words words constraints'.
Proof.
  intros Hwords Hcs Hperm.
  induction Hwords as [|x words [Hx _] _ IH]; simpl; [done|].
  by rewrite (all_satisfied_perm L _ _ x Hcs Hx Hperm), IH.
Qed.

End ConstraintOrder.

(** X13. On a corpus of words of one length over the alphabet and
    constraints whose positions are positions of such words, the selected
    word does not depend on the order in which the constraints are
    listed. *)
Theorem get_word_to_guess_constraint_order `{SetOrder} (words : list word)
    (constraints constraints' : list Constraint) (word_length : nat) :
  Forall (valid_word word_length) words →
  Forall (below word_length) constraints →
  constraints ≡ₚ constraints' →
  get_word_to_guess words constraints = get_word_to_guess words constraints'.
Proof.
  intros Hwords Hcs Hperm. unfold get_word_to_guess.
  by rewrite (filter_words_perm word_length _ _ _ Hwords Hcs Hperm).
Qed.

Lemma get_word_to_guess_constraint_order_witness :
  Forall (valid_word 5) [w "later"; w "piano"; w "boots"]
  ∧ Forall (below 5)
      [mkConstraint "o" {[ 1 ]} IN_SOME_POSITION;
       mkConstraint "a" {[ 0; 1; 2; 3; 4 ]} NOT_IN_POSITIONS]
  ∧ @get_word_to_guess elements_order [w "later"; w "piano"; w "boots"]
      [mkConstraint "o" {[ 1 ]} IN_SOME_POSITION;
       mkConstraint "a" {[ 0; 1; 2; 3; 4 ]} NOT_IN_POSITIONS]
    = @get_word_to_guess elements_order [w "later"; w "piano"; w "boots"]
        [mkConstraint "a" {[ 0; 1; 2; 3; 4 ]} NOT_IN_POSITIONS;
         mkConstraint "o" {[ 1 ]} IN_SOME_POSITION].
Proof.
  assert (Forall (valid_word 5) [w "later"; w "piano"; w "boots"]) as Hwords.
  { apply (bool_decide_unpack _). vm_compute. exact I. }
  assert (Forall (below 5)
            [mkConstraint "o" {[ 1 ]} IN_SOME_POSITION;
             mkConstraint "a" {[ 0; 1; 2; 3; 4 ]} NOT_IN_POSITIONS]) as Hcs.
  { apply (bool_decide_unpack _). vm_compute. exact I. }
  split; [exact Hwords|]. split; [exact Hcs|].
  apply (@get_word_to_guess_constraint_order elements_order _ _ _ 5 Hwords
           Hcs).
  apply perm_swap.
Defined.

(** ** The updater as a whole *)

(** X14. The updater never rules out the solution: when the guess is the
    evaluation of a word against the solution, both of the length that the
    updater is told, and the solution satisfies the given constraints, the
    updater returns constraints that the solution satisfies as well. *)
Theorem update_constraints_keeps_solution `{SetOrder} (wd solution : word)
    (word_length : nat) (constraints : list Constraint) :
  length wd = word_length → length solution = word_length →
  Forall (in_range word_length) constraints →
  Forall (λ c, is_satisfied c solution = Ok true) constraints →
  ∃ new_constraints,
    update_constraints constraints (create_from_word wd solution) word_length
    = Ok new_constraints
    ∧ Forall (λ c, is_satisfied c solution = Ok true) new_constraints.
Proof.
  intros Hwd Hsol Hrange Hsat.
  destruct (update_constraints_holds wd solution word_length Hwd Hsol
              constraints) as (cs' & Hupdate & Hholds).
  { eapply Forall_impl; [exact Hsat|]. intros c Hc. simpl in Hc.
    by apply (is_satisfied_holds c solution true Hc). }
  exists cs'. split; [done|].
  pose proof (update_loop_in_range (create_from_word wd solution) word_length
                0 (chars (create_from_word wd solution)) constraints) as Hr.
  unfold update_constraints in Hupdate. rewrite Hupdate in Hr.
  assert (Forall (in_range word_length) cs') as Hrange'.
  { apply Hr; [|clear Hr|done].
    - rewrite create_from_word_length. lia.
    - destruct (decide (2 ≤ word_length)) as [|Hsmall]; [by left|right].
      intros ch Hch Hy. apply Hsmall. rewrite <- Hwd.
      eapply (evaluated_yellow_needs_two_letters wd solution ch);
        [congruence|done..]. }
  rewrite Forall_forall in Hholds, Hrange'. apply Forall_forall.
  intros c Hc. destruct (Hrange' c Hc) as [_ Hbelow].
  destruct (is_satisfied_in_range word_length c solution Hbelow Hsol)
    as [b Hb].
  rewrite Hb. f_equal. apply (is_satisfied_holds c solution b Hb).
  by apply Hholds.
Qed.

Lemma update_constraints_keeps_solution_witness :
  length (w "boots") = 5 ∧ length (w "piano") = 5
  ∧ ∃ new_constraints,
      update_constraints [] (create_from_word (w "boots") (w "piano")) 5
      = Ok new_constraints
      ∧ Forall (λ c, @is_satisfied elements_order c (w "piano") = Ok true)
          new_constraints.
Proof.
  split; [reflexivity|]. split; [reflexivity|].
  apply (@update_constraints_keeps_solution elements_order (w "boots")
           (w "piano") 5 []); [reflexivity|reflexivity|constructor..].
Defined.

Lemma update_loop_raises guess L todo : ∀ i cs,
  ((∃ e, update_loop guess L i todo cs = Raise e)
   ↔ ∃ ch, ch ∈ todo ∧ colour ch = None)
  ∧ (∀ e, update_loop guess L i todo cs = Raise e → e = UnexpectedColour).
Proof.
  induction todo as [|ch todo IH]; intros i cs; simpl.
  { split; [|done]. split; [by intros [? ?]|].
    by intros (? & ?%elem_of_nil & _). }
  destruct (update_char guess L cs i ch) as [cs1|e1] eqn:Hstep; simpl.
  - destruct (IH (S i) cs1) as [Hiff Hkind]. split; [|done].
    rewrite Hiff. split.
    + intros (ch' & ? & ?). exists ch'. split; [by right|done].
    + intros (ch' & [->|?]%elem_of_cons & Hnone); [|by exists ch'].
      unfold update_char in Hstep. rewrite Hnone in Hstep. done.
  - assert (e1 = UnexpectedColour ∧ colour ch = None) as [-> Hnone].
    { unfold update_char in Hstep.
      destruct (colour ch) as [[| |]|]; try done.
      - by case_bool_decide.
      - by injection Hstep as <-. }
    split; [|by intros e [= <-]]. split; [|by eexists].
    intros _. exists ch. split; [by left|done].
Qed.

(** X15. [update_constraints] raises exactly when a character of the
    guess has no colour, and then the error for an unexpected colour; it
    therefore returns on every evaluated guess, whatever the constraints
    and the word length it is given. *)
Theorem update_constraints_raises (constraints : list Constraint)
    (guess : Guess) (word_length : nat) :
  ((∃ e, update_constraints constraints guess word_length = Raise e)
   ↔ ∃ ch, ch ∈ chars guess ∧ colour ch = None)
  ∧ (∀ e, update_constraints constraints guess word_length = Raise e →
       e = UnexpectedColour)
  ∧ (∀ wd solution, guess = create_from_word wd solution →
       ∃ new_constraints,
         update_constraints constraints guess word_length
         = Ok new_constraints).
Proof.
  destruct (update_loop_raises guess word_length (chars guess) 0 constraints)
    as [Hiff Hkind].
  split; [exact Hiff|]. split; [exact Hkind|].
  intros wd solution ->. unfold update_constraints in *.
  destruct (update_loop _ _ _ _ _) as [cs'|e] eqn:Hloop; [by eexists|].
  destruct (proj1 Hiff) as (ch & [j Hj]%list_elem_of_lookup_1 & Hnone);
    [by eexists|].
  assert (j < length wd `min` length solution) as Hlt.
  { rewrite <- create_from_word_length. by eapply lookup_lt_Some. }
  destruct (lookup_lt_is_Some_2 wd j) as [a Ha]; [lia|].
  destruct (lookup_lt_is_Some_2 solution j) as [b Hb]; [lia|].
  destruct (create_from_word_lookup solution wd j a b Ha Hb)
    as (col & Hcol & _).
  rewrite Hj in Hcol. by injection Hcol as ->.
Qed.

Lemma update_constraints_raises_witness :
  mkChar "a" None ∈ chars (mkGuess [mkChar "a" None])
  ∧ update_constraints [] (mkGuess [mkChar "a" None]) 1
    = Raise UnexpectedColour.
Proof.
  assert (∃ ch, ch ∈ chars (mkGuess [mkChar "a" None]) ∧ colour ch = None)
    as Hnone.
  { exists (mkChar "a" None). split; [by left|done]. }
  split; [by left|].
  destruct (update_constraints_raises [] (mkGuess [mkChar "a" None]) 1)
    as (Hiff & Hkind & _).
  destruct (proj2 Hiff Hnone) as [e He]. rewrite He. f_equal.
  exact (Hkind e He).
Defined.

Lemma filter_filter_impl {A} (P Q : A → Prop) `{!∀ x, Decision (P x)}
    `{!∀ x, Decision (Q x)} (l : list A) :
  (∀ x, P x → Q x) → filter P (filter Q l) = filter P l.
Proof.
  intros Himpl. induction l as [|x l IH]; [done|].
  rewrite !filter_cons. destruct (decide (Q x)) as [HQ|HQ].
  - rewrite filter_cons. destruct (decide (P x)); by rewrite IH.
  - rewrite decide_False by (intros ?; by apply HQ, Himpl). done.
Qed.

Lemma update_char_other_letters guess L cs i ch cs' (letters : list ascii) :
  letter ch ∈ letters →
  update_char guess L cs i ch = Ok cs' →
  filter (λ c, char c ∉ letters) cs' = filter (λ c, char c ∉ letters) cs
  ∧ length cs' ≤ length cs + 2.
Proof.
  intros Hin. unfold update_char.
  assert (∀ c, char c ∉ letters → char c ≠ letter ch) as Hne
    by (intros c Hc Heq; apply Hc; by rewrite Heq).
  assert (∀ p t, filter (λ c, char c ∉ letters) [mkConstraint (letter ch) p t]
                 = []) as Hnew.
  { intros p t. rewrite filter_cons, decide_False; [done|]. by intros []. }
  pose proof (length_filter (λ c, char c ≠ letter ch) cs) as Hshort.
  destruct (colour ch) as [[| |]|]; [| | |done].
  - case_bool_decide; intros [= <-]; rewrite !filter_app, Hnew, app_nil_r,
      ?length_app; simpl; unfold without_char;
      rewrite ?filter_filter_impl by done; split; done || lia.
  - intros [= <-]. rewrite !filter_app, !Hnew, !app_nil_r, !length_app.
    simpl. split; [done|lia].
  - intros [= <-]. rewrite !filter_app, Hnew, app_nil_r, length_app. simpl.
    unfold without_char. rewrite filter_filter_impl by done.
    split; [done|lia].
Qed.

Lemma update_loop_other_letters guess L (letters : list ascii) todo :
  ∀ i cs cs',
  (∀ ch, ch ∈ todo → letter ch ∈ letters) →
  update_loop guess L i todo cs = Ok cs' →
  filter (λ c, char c ∉ letters) cs' = filter (λ c, char c ∉ letters) cs
  ∧ length cs' ≤ length cs + 2 * length todo.
Proof.
  induction todo as [|ch todo IH]; intros i cs cs' Hletters; simpl.
  { intros [= <-]. split; [done|lia]. }
  destruct (update_char guess L cs i ch) as [cs1|] eqn:Hstep; simpl; [|done].
  intros Hloop.
  destruct (update_char_other_letters _ _ _ _ _ _ letters
              (Hletters ch ltac:(by left)) Hstep) as [Heq1 Hlen1].
  destruct (IH (S i) cs1 cs') as [Heq Hlen]; [|done|].
  { intros ??. apply Hletters. by right. }
  split; [by rewrite Heq, Heq1|lia].
Qed.

(** X16. [update_constraints] touches the constraints on the letters of
    the guess only: the constraints on every other letter are in its
    result exactly as they were given, in the same order; and each
    character of the guess makes the list longer by two constraints at
    most. *)
Theorem update_constraints_other_letters (constraints : list Constraint)
    (guess : Guess) (word_length : nat) (new_constraints : list Constraint) :
  update_constraints constraints guess word_length = Ok new_constraints →
  filter (λ c, char c ∉ letter <$> chars guess) new_constraints
  = filter (λ c, char c ∉ letter <$> chars guess) constraints
  ∧ length new_constraints
    ≤ length constraints + 2 * length (chars guess).
Proof.
  apply update_loop_other_letters.
  intros ch Hch. apply list_elem_of_fmap. by exists ch.
Qed.

Lemma update_constraints_other_letters_witness :
  ∃ new_constraints,
    update_constraints [mkConstraint "x" {[ 0 ]} NOT_IN_POSITIONS]
      (create_from_word (w "boots") (w "piano")) 5
    = Ok new_constraints
    ∧ filter (λ c, char c
                   ∉ letter <$> chars (create_from_word (w "boots")
                                         (w "piano")))
        new_constraints
      = filter (λ c, char c
                     ∉ letter <$> chars (create_from_word (w "boots")
                                           (w "piano")))
          [mkConstraint "x" {[ 0 ]} NOT_IN_POSITIONS].
Proof.
  eexists. split; [vm_compute; reflexivity|].
  apply (update_constraints_other_letters
           [mkConstraint "x" {[ 0 ]} NOT_IN_POSITIONS]
           (create_from_word (w "boots") (w "piano")) 5).
  vm_compute; reflexivity.
Defined.

Lemma constraints_upto_all_green cs guess L k :
  (∀ ch, ch ∈ chars guess → colour ch = Some GREEN) →
  k ≤ length (chars guess) →
  ∃ cs', constraints_upto cs guess L k = Ok cs'
    ∧ ∀ c, c ∈ cs'
        ↔ (c ∈ cs ∧ char c ∉ take k (letter <$> chars guess))
          ∨ (∃ j, j < k
               ∧ (letter <$> chars guess) !! j = Some (char c)
               ∧ (∀ j', j < j' → j' < k →
                    (letter <$> chars guess) !! j' ≠ Some (char c))
               ∧ c = mkConstraint (char c) {[ j ]} IN_SOME_POSITION).
Proof.
  intros Hgreen. induction k as [|k IH]; intros Hk.
  { exists cs. split; [done|]. intros c. split.
    - intros Hc. left. split; [done|]. by intros ?%elem_of_nil.
    - intros [[? _]|(j & ? & _)]; [done|lia]. }
  destruct IH as (cs_k & Hupto & Hin); [lia|].
  destruct (lookup_lt_is_Some_2 (chars guess) k) as [ch Hch]; [lia|].
  assert (colour ch = Some GREEN) as Hcol
    by (by eapply Hgreen, list_elem_of_lookup_2).
  assert ((letter <$> chars guess) !! k = Some (letter ch)) as Hlk
    by (by rewrite list_lookup_fmap, Hch).
  rewrite (constraints_upto_S _ _ _ _ _ Hch), Hupto. simpl.
  unfold update_char. rewrite Hcol. eexists. split; [done|].
  intros c. rewrite elem_of_app, list_elem_of_singleton.
  unfold without_char. rewrite list_elem_of_filter, Hin.
  rewrite (take_S_r _ _ _ Hlk). setoid_rewrite elem_of_app.
  setoid_rewrite list_elem_of_singleton. split.
  - intros [[Hne [[Hc Hout]|(j & Hj & Hjc & Hlast & Hshape)]]| ->].
    + left. split; [done|]. intros [?|?]; [done|by apply Hne].
    + right. exists j. split; [lia|]. split; [done|]. split; [|done].
      intros j' ? ?. destruct (decide (j' = k)) as [->|]; [|apply Hlast; lia].
      rewrite Hlk. congruence.
    + right. exists k. simpl. split; [lia|]. split; [done|].
      split; [intros; lia|done].
  - intros [[Hc Hout]|(j & Hj & Hjc & Hlast & Hshape)].
    + left. split; [intros ?; apply Hout; by right|].
      left. split; [done|]. intros ?. apply Hout. by left.
    + destruct (decide (j = k)) as [->|Hne].
      * right. rewrite Hlk in Hjc. injection Hjc as Heq.
        rewrite Hshape. by rewrite <- Heq.
      * left. split.
        { intros Heq. apply (Hlast k); [lia..|]. by rewrite Hlk, Heq. }
        right. exists j. split; [lia|]. split; [done|]. split; [|done].
        intros j' ? ?. apply Hlast; lia.
Qed.

(** X17. An all-green guess replaces what was known of its letters by
    one constraint for each: that the letter is at the last position at
    which the guess has it.  The constraints on the other letters stay,
    and no [NOT_IN_POSITIONS] constraint is added. *)
Theorem update_constraints_all_green (constraints : list Constraint)
    (guess : Guess) (word_length : nat) :
  (∀ ch, ch ∈ chars guess → colour ch = Some GREEN) →
  ∃ new_constraints,
    update_constraints constraints guess word_length = Ok new_constraints
    ∧ ∀ c, c ∈ new_constraints
        ↔ (c ∈ constraints ∧ char c ∉ letter <$> chars guess)
          ∨ (∃ j, (letter <$> chars guess) !! j = Some (char c)
               ∧ (∀ j', j < j' →
                    (letter <$> chars guess) !! j' ≠ Some (char c))
               ∧ c = mkConstraint (char c) {[ j ]} IN_SOME_POSITION).
Proof.
  intros Hgreen.
  destruct (constraints_upto_all_green constraints guess word_length
              (length (chars guess)) Hgreen) as (cs' & Hupto & Hin); [done|].
  rewrite constraints_upto_all in Hupto. exists cs'. split; [done|].
  intros c. rewrite Hin, take_ge by (by rewrite length_fmap).
  split; (intros [?|(j & Hrest)]; [by left|right; exists j]).
  - destruct Hrest as (Hj & Hjc & Hlast & Hshape). split; [done|].
    split; [|done]. intros j' Hlt Hj'. apply (Hlast j'); [done| |done].
    apply lookup_lt_Some in Hj'. by rewrite length_fmap in Hj'.
  - destruct Hrest as (Hjc & Hlast & Hshape).
    split; [|split; [done|split; [|done]]].
    + apply lookup_lt_Some in Hjc. by rewrite length_fmap in Hjc.
    + intros j' ? _. by apply Hlast.
Qed.

Lemma update_constraints_all_green_witness :
  (∀ ch, ch ∈ chars (create_from_word (w "eerie") (w "eerie")) →
     colour ch = Some GREEN)
  ∧ update_constraints [] (create_from_word (w "eerie") (w "eerie")) 5
    = Ok [mkConstraint "r" {[ 2 ]} IN_SOME_POSITION;
          mkConstraint "i" {[ 3 ]} IN_SOME_POSITION;
          mkConstraint "e" {[ 4 ]} IN_SOME_POSITION]
  ∧ ∃ new_constraints,
      update_constraints [] (create_from_word (w "eerie") (w "eerie")) 5
      = Ok new_constraints
      ∧ (mkConstraint "e" {[ 4 ]} IN_SOME_POSITION ∈ new_constraints
         ↔ (mkConstraint "e" {[ 4 ]} IN_SOME_POSITION ∈ []
            ∧ "e"%char ∉ w "eerie")
           ∨ (∃ j, w "eerie" !! j = Some "e"%char
                ∧ (∀ j', j < j' → w "eerie" !! j' ≠ Some "e"%char)
                ∧ mkConstraint "e" {[ 4 ]} IN_SOME_POSITION
                  = mkConstraint "e" {[ j ]} IN_SOME_POSITION)).
Proof.
  assert (∀ ch, ch ∈ chars (create_from_word (w "eerie") (w "eerie")) →
            colour ch = Some GREEN) as Hgreen.
  { apply Forall_forall. apply (bool_decide_unpack _). vm_compute. exact I. }
  split; [exact Hgreen|]. split; [vm_compute; reflexivity|].
  destruct (update_constraints_all_green []
              (create_from_word (w "eerie") (w "eerie")) 5 Hgreen)
    as (cs' & Hupdate & Hin).
  exists cs'. split; [exact Hupdate|].
  exact (Hin (mkConstraint "e" {[ 4 ]} IN_SOME_POSITION)).
Defined.

(** ** The history of a run *)

Section History.
Context `{SetOrder}.
Variable words : list word.
Hypothesis Hwords : Forall (valid_word WORD_LENGTH) words.

(** The guesses that the loop enters are evaluations of corpus words
    against the solution, and none but the last can be the solution. *)
Lemma simulate_loop_history n : ∀ puzzle constraints,
  MAX_NUM_GUESSES - length (guesses puzzle) ≤ n →
  solution puzzle ∈ words →
  Forall (λ c, holds c (solution puzzle)) constraints →
  Forall (in_range WORD_LENGTH) constraints →
  ∃ final entered,
    (∀ fuel, n ≤ fuel →
       simulate_loop fuel words puzzle constraints = report final)
    ∧ is_in_progress final = false
    ∧ guesses final
      = guesses puzzle
        ++ ((λ wd, create_from_word wd (solution puzzle)) <$> entered)
    ∧ Forall (λ wd, wd ∈ words) entered
    ∧ (∀ pre wd post, entered = pre ++ wd :: post → post ≠ [] →
         wd ≠ solution puzzle)
    ∧ length (guesses puzzle) + length entered
      ≤ MAX_NUM_GUESSES `max` length (guesses puzzle).
Proof.
  induction n as [|n IH]; intros puzzle constraints Hn Hsol Hholds Hrange.
  { exists puzzle, [].
    assert (is_in_progress puzzle = false) as Hstop.
    { unfold is_in_progress. destruct (won puzzle); [done|].
      apply bool_decide_false. lia. }
    split; [|split; [done|split; [by rewrite app_nil_r|split; [done|split]]]].
    - intros fuel _. destruct fuel; simpl; by rewrite Hstop.
    - by intros [] ??.
    - simpl. lia. }
  destruct (is_in_progress puzzle) eqn:Hprogress.
  2:{ exists puzzle, [].
      split; [|split; [done|split; [by rewrite app_nil_r|split; [done|split]]]].
      - intros fuel _. destruct fuel; simpl; by rewrite Hprogress.
      - by intros [] ??.
      - simpl. lia. }
  assert (length (guesses puzzle) < MAX_NUM_GUESSES) as Hlt.
  { unfold is_in_progress in Hprogress. destruct (won puzzle); [done|].
    by apply bool_decide_eq_true in Hprogress. }
  destruct (get_word_to_guess_finds words Hwords (solution puzzle)
              constraints) as (wd & Hget & Hwd); [done..|].
  assert (valid_word WORD_LENGTH wd) as Hvalid.
  { rewrite Forall_forall in Hwords. by apply Hwords. }
  assert (valid_word WORD_LENGTH (solution puzzle)) as [Hsollen _].
  { rewrite Forall_forall in Hwords. by apply Hwords. }
  pose proof (enter_word_valid puzzle wd Hvalid Hlt) as Henter.
  pose proof (create_from_word_is_correct wd (solution puzzle)) as Hcorrect.
  set (guess := create_from_word wd (solution puzzle)) in *.
  set (puzzle' := mkPuzzle (solution puzzle) (guesses puzzle ++ [guess])) in *.
  destruct (is_correct guess) eqn:Hright.
  { exists puzzle', [wd]. split; [|split; [|split; [done|split; [|split]]]].
    - intros [|fuel] Hfuel; [lia|]. simpl.
      by rewrite Hprogress, Hget, Henter, Hright.
    - unfold is_in_progress, puzzle'. by rewrite won_snoc, Hright.
    - by apply Forall_singleton.
    - intros [|? [|]] ? post Heq Hpost; simplify_eq/=.
    - simpl. lia. }
  destruct (update_constraints_holds wd (solution puzzle) WORD_LENGTH
              (proj1 Hvalid) Hsollen constraints Hholds)
    as (constraints' & Hupdate & Hholds').
  fold guess in Hupdate.
  assert (Forall (in_range WORD_LENGTH) constraints') as Hrange'.
  { pose proof (update_loop_in_range guess WORD_LENGTH 0 (chars guess)
                  constraints) as Hr.
    unfold update_constraints in Hupdate. rewrite Hupdate in Hr.
    apply Hr; [|left; unfold WORD_LENGTH; lia|done].
    unfold guess. rewrite create_from_word_length. destruct Hvalid. lia. }
  destruct (IH puzzle' constraints')
    as (final & entered & Hrun & Hstop & Hhist & Hin & Hlast & Hlen);
    [unfold puzzle'; simpl; rewrite length_app; simpl; lia|done..|].
  exists final, (wd :: entered).
  split; [|split; [done|split; [|split; [|split]]]].
  - intros [|fuel] Hfuel; [lia|]. simpl.
    rewrite Hprogress, Hget, Henter, Hright, Hupdate.
    apply Hrun. lia.
  - rewrite Hhist. unfold puzzle'. simpl. by rewrite <- app_assoc.
  - by constructor.
  - intros [|x pre] y post Heq Hpost; simpl in Heq;
      injection Heq as Hy Hrest.
    + rewrite <- Hy. intros Hsame. destruct Hvalid as [Hwdlen _].
      assert (length wd = length (solution puzzle)) as Hl by congruence.
      by apply (Hcorrect Hl) in Hsame.
    + by eapply Hlast.
  - unfold puzzle' in Hlen. simpl in Hlen. rewrite length_app in Hlen.
    simpl in *. lia.
Qed.

End History.

(** X18. On a corpus of five-letter words over the alphabet and for a
    solution drawn from it, the history of a run of [simulate] is the
    evaluation against the solution of between one and [MAX_NUM_GUESSES]
    words of the corpus.  A reported win comes with the number of guesses
    and means that the last word entered is the solution and no earlier
    one is; a reported loss comes without a number and means that
    [MAX_NUM_GUESSES] words were entered, none of them the solution. *)
Theorem simulate_history `{SetOrder} (words : list word) (solution : word) :
  Forall (valid_word WORD_LENGTH) words →
  solution ∈ words →
  ∃ result num_guesses final entered,
    simulate MAX_NUM_GUESSES words solution
    = Returned result num_guesses final
    ∧ guesses final = (λ wd, create_from_word wd solution) <$> entered
    ∧ Forall (λ wd, wd ∈ words) entered
    ∧ 1 ≤ length entered ∧ length entered ≤ MAX_NUM_GUESSES
    ∧ (result = true →
       num_guesses = Some (length entered)
       ∧ ∃ pre, entered = pre ++ [solution] ∧ solution ∉ pre)
    ∧ (result = false →
       num_guesses = None ∧ length entered = MAX_NUM_GUESSES
       ∧ solution ∉ entered).
Proof.
  intros Hwords Hsol.
  destruct (simulate_loop_history words Hwords MAX_NUM_GUESSES
              (mkPuzzle solution []) [])
    as (final & entered & Hrun & Hstop & Hhist & Hin & Hlast & Hmax);
    [unfold MAX_NUM_GUESSES; simpl; lia|done|constructor..|].
  simpl in Hhist, Hlast, Hmax.
  assert (length entered ≤ MAX_NUM_GUESSES) as Hbound
    by (unfold MAX_NUM_GUESSES in *; simpl in Hmax; lia).
  assert (length (guesses final) = length entered) as Hlen
    by (by rewrite Hhist, length_fmap).
  assert (∀ wd, wd ∈ entered → length wd = length solution) as Hlens.
  { rewrite Forall_forall in Hwords, Hin. intros wd Hwd.
    destruct (Hwords wd (Hin wd Hwd)) as [-> _].
    by destruct (Hwords solution Hsol) as [-> _]. }
  assert (∀ pre post, entered = pre ++ solution :: post → post = [])
    as Honly_last.
  { intros pre post Heq. destruct post as [|y post]; [done|].
    by destruct (Hlast pre solution (y :: post) Heq). }
  assert (won final = true
          ↔ ∃ pre, entered = pre ++ [solution] ∧ solution ∉ pre) as Hwon.
  { unfold won. rewrite Hhist, fmap_last.
    destruct entered as [|x entered _] using rev_ind; simpl.
    { split; [done|]. by intros ([] & ? & _). }
    rewrite last_snoc. simpl.
    rewrite create_from_word_is_correct
      by (apply Hlens, elem_of_app; right; by left).
    split.
    - intros ->. exists entered. split; [done|].
      intros (pre & post & ->)%list_elem_of_split.
      assert (post ++ [solution] = []); [|by destruct post].
      apply (Honly_last pre). by rewrite <- app_assoc.
    - by intros (pre & [-> ->]%app_inj_tail & _). }
  assert (1 ≤ length entered) as Hone.
  { destruct entered; simpl; [|lia].
    unfold is_in_progress, won in Hstop. rewrite Hhist in Hstop.
    by vm_compute in Hstop. }
  exists (won final),
    (if won final then Some (length (guesses final)) else None),
    final, entered.
  split.
  { unfold simulate. rewrite (Hrun MAX_NUM_GUESSES) by done.
    unfold report. by destruct (won final). }
  split; [done|]. split; [done|]. split; [done|]. split; [done|].
  unfold is_in_progress in Hstop. destruct (won final) eqn:Hw.
  - split; [|done]. intros _. split; [by rewrite Hlen|]. by apply Hwon.
  - split; [done|]. intros _. apply bool_decide_eq_false in Hstop.
    split; [done|]. split; [lia|].
    intros (pre & post & Heq)%list_elem_of_split.
    pose proof (Honly_last pre post Heq) as ->.
    assert (false = true) as Habs; [|done].
    apply Hwon. exists pre. split; [done|].
    intros (pre1 & post1 & ->)%list_elem_of_split.
    assert (post1 ++ [solution] = []); [|by destruct post1].
    apply (Honly_last pre1). rewrite Heq. by rewrite <- app_assoc.
Qed.

Lemma simulate_history_witness :
  Forall (valid_word WORD_LENGTH) [w "later"; w "piano"; w "boots"]
  ∧ w "piano" ∈ [w "later"; w "piano"; w "boots"]
  ∧ ∃ result num_guesses final entered,
      @simulate elements_order MAX_NUM_GUESSES
        [w "later"; w "piano"; w "boots"] (w "piano")
      = Returned result num_guesses final
      ∧ guesses final
        = (λ wd, create_from_word wd (w "piano")) <$> entered
      ∧ 1 ≤ length entered ∧ length entered ≤ MAX_NUM_GUESSES.
Proof.
  assert (Forall (valid_word WORD_LENGTH) [w "later"; w "piano"; w "boots"])
    as Hwords.
  { apply (bool_decide_unpack _). vm_compute. exact I. }
  assert (w "piano" ∈ [w "later"; w "piano"; w "boots"]) as Hsol.
  { apply (bool_decide_unpack _). vm_compute. exact I. }
  split; [exact Hwords|]. split; [exact Hsol|].
  destruct (@simulate_history elements_order
              [w "later"; w "piano"; w "boots"] (w "piano") Hwords Hsol)
    as (result & num_guesses & final & entered & Hrun & Hhist & _ & Hone
        & Hmax & _).
  exists result, num_guesses, final, entered.
  split; [exact Hrun|]. split; [exact Hhist|]. split; [exact Hone|exact Hmax].
Defined.

(** ** Printing a guess *)

Lemma get_print_str_coloured ch s :
  get_print_str ch true = Ok s →
  ∃ col digit,
    colour ch = Some col
    ∧ digit = match col with
              | GREEN => "2"%char
              | YELLOW => "3"%char
              | GREY => "7"%char
              end
    ∧ s = [ESC; "["%char; "9"%char; digit; "m"%char; letter ch;
           ESC; "["%char; "0"%char; "0"%char; "m"%char].
Proof.
  unfold get_print_str. simpl.
  destruct (colour ch) as [[| |]|]; simpl; [| | |done]; intros [= <-];
    by eexists _, _.
Qed.

Lemma get_print_str_raises ch e :
  get_print_str ch true = Raise e → e = UnexpectedColour ∧ colour ch = None.
Proof.
  unfold get_print_str. simpl.
  destruct (colour ch) as [[| |]|]; simpl; try done. by intros [= <-].
Qed.

Lemma join_print_strs_Ok cs :
  Forall (λ ch, is_Some (colour ch)) cs →
  ∃ s, join_print_strs cs = Ok s ∧ length s = 11 * length cs.
Proof.
  induction 1 as [|ch cs [col Hcol] _ (t & Ht & Hlen)]; simpl.
  { by exists []. }
  destruct (get_print_str ch true) as [s|e] eqn:Hs.
  - apply get_print_str_coloured in Hs as (? & ? & _ & _ & ->).
    rewrite Ht. simpl. eexists. split; [done|]. simpl. lia.
  - apply get_print_str_raises in Hs as [_ ?]. congruence.
Qed.

Lemma join_print_strs_raises cs e :
  join_print_strs cs = Raise e →
  e = UnexpectedColour ∧ ∃ ch, ch ∈ cs ∧ colour ch = None.
Proof.
  induction cs as [|ch cs IH]; simpl; [done|].
  destruct (get_print_str ch true) as [s|e'] eqn:Hs; simpl.
  - destruct (join_print_strs cs) as [t|e'']; simpl; [done|].
    intros [= <-]. destruct (IH eq_refl) as [-> (ch' & ? & ?)].
    split; [done|]. exists ch'. split; [by right|done].
  - intros [= <-]. apply get_print_str_raises in Hs as [-> ?].
    split; [done|]. exists ch. split; [by left|done].
Qed.

(** X19. [Guess.print] raises only for a character without a colour and
    then the error for an unexpected colour; on an evaluated guess it
    prints a line of eleven characters for each letter that was
    evaluated. *)
Theorem guess_print_evaluated (wd solution : word) :
  (∀ guess e, guess_print guess = Raise e →
     e = UnexpectedColour ∧ ∃ ch, ch ∈ chars guess ∧ colour ch = None)
  ∧ ∃ line,
      guess_print (create_from_word wd solution) = Ok line
      ∧ length line = 11 * (length wd `min` length solution).
Proof.
  split; [intros guess e; apply join_print_strs_raises|].
  unfold guess_print.
  destruct (join_print_strs_Ok (chars (create_from_word wd solution)))
    as (s & Hs & Hlen).
  - apply Forall_lookup. intros i ch Hch.
    assert (i < length wd `min` length solution) as Hi.
    { rewrite <- create_from_word_length. by eapply lookup_lt_Some. }
    destruct (lookup_lt_is_Some_2 wd i) as [a Ha]; [lia|].
    destruct (lookup_lt_is_Some_2 solution i) as [b Hb]; [lia|].
    destruct (create_from_word_lookup solution wd i a b Ha Hb)
      as (col & Hcol & _).
    rewrite Hch in Hcol. injection Hcol as ->. by eexists.
  - exists s. split; [done|]. by rewrite Hlen, create_from_word_length.
Qed.

Lemma guess_print_evaluated_witness :
  guess_print (mkGuess [mkChar "a" None]) = Raise UnexpectedColour
  ∧ ∃ line,
      guess_print (create_from_word (w "boots") (w "piano")) = Ok line
      ∧ length line = 55.
Proof.
  destruct (guess_print_evaluated (w "boots") (w "piano")) as [Hraise Hline].
  split; [|exact Hline].
  destruct (guess_print (mkGuess [mkChar "a" None])) as [s|e] eqn:Hp;
    [vm_compute in Hp; discriminate|].
  f_equal. exact (proj1 (Hraise _ e Hp)).
Defined.

Lemma join_print_strs_inj cs : ∀ cs' s,
  join_print_strs cs = Ok s → join_print_strs cs' = Ok s → cs = cs'.
Proof.
  induction cs as [|ch cs IH]; intros [|ch' cs'] s; simpl.
  - done.
  - intros [= <-].
    destruct (get_print_str ch' true) as [s'|] eqn:Hs'; simpl; [|done].
    apply get_print_str_coloured in Hs' as (? & ? & _ & _ & ->).
    by destruct (join_print_strs cs').
  - destruct (get_print_str ch true) as [s'|] eqn:Hs'; simpl; [|done].
    apply get_print_str_coloured in Hs' as (? & ? & _ & _ & ->).
    destruct (join_print_strs cs); simpl; [|done]. by intros [= <-] [=].
  - destruct (get_print_str ch true) as [s1|] eqn:Hs1; simpl; [|done].
    destruct (get_print_str ch' true) as [s2|] eqn:Hs2; simpl; [|done].
    apply get_print_str_coloured in Hs1 as (col1 & d1 & Hc1 & Hd1 & ->).
    apply get_print_str_coloured in Hs2 as (col2 & d2 & Hc2 & Hd2 & ->).
    destruct (join_print_strs cs) as [t1|] eqn:Ht1; simpl; [|done].
    destruct (join_print_strs cs') as [t2|] eqn:Ht2; simpl; [|done].
    intros [= <-] [= Hd Hl Ht]. f_equal.
    + destruct ch as [l1 c1], ch' as [l2 c2]. simpl in *. subst.
      f_equal. f_equal. destruct col1, col2; done.
    + apply (IH cs' t1); [done|]. congruence.
Qed.

(** X20. The printed line tells the guess: two guesses that print the
    same line have the same letters with the same colours. *)
Theorem guess_print_inj (guess guess' : Guess) (line : word) :
  guess_print guess = Ok line → guess_print guess' = Ok line →
  guess = guess'.
Proof.
  destruct guess as [cs], guess' as [cs']. unfold guess_print. simpl.
  intros Hp Hp'. f_equal. by eapply join_print_strs_inj.
Qed.

Lemma guess_print_inj_witness :
  ∃ line,
    guess_print (create_from_word (w "boots") (w "piano")) = Ok line
    ∧ guess_print
        (mkGuess [mkChar "b" (Some GREY); mkChar "o" (Some YELLOW);
                  mkChar "o" (Some GREY); mkChar "t" (Some GREY);
                  mkChar "s" (Some GREY)]) = Ok line
    ∧ create_from_word (w "boots") (w "piano")
      = mkGuess [mkChar "b" (Some GREY); mkChar "o" (Some YELLOW);
                 mkChar "o" (Some GREY); mkChar "t" (Some GREY);
                 mkChar "s" (Some GREY)].
Proof.
  eexists. split; [vm_compute; reflexivity|].
  split; [vm_compute; reflexivity|].
  eapply guess_print_inj; vm_compute; reflexivity.
Defined.

(** ** Batches of runs *)

Section BatchFacts.
Context `{SetOrder}.
Variable words : list word.
Hypothesis Hwords : Forall (valid_word WORD_LENGTH) words.

(** What a run returns on a valid corpus. *)
Lemma simulate_returns solution :
  solution ∈ words →
  ∃ final,
    simulate MAX_NUM_GUESSES words solution = report final
    ∧ length (guesses final) ≤ MAX_NUM_GUESSES
    ∧ (won final = true → 1 ≤ length (guesses final)).
Proof.
  intros Hsol.
  destruct (simulate_loop_returns words Hwords MAX_NUM_GUESSES
              (mkPuzzle solution []) [])
    as (final & Hrun & _ & Hlen);
    [unfold MAX_NUM_GUESSES; simpl; lia|done|constructor..|].
  exists final. split; [by apply Hrun|]. split.
  - etrans; [exact Hlen|]. unfold MAX_NUM_GUESSES. simpl. lia.
  - unfold won. destruct (guesses final); simpl; [done|lia].
Qed.

Lemma simulations_loop_counts draws : ∀ num_won guess_nums,
  Forall (λ solution, solution ∈ words) draws →
  num_won = length guess_nums →
  Forall (λ n, 1 ≤ n ∧ n ≤ MAX_NUM_GUESSES) guess_nums →
  ∃ guess_nums',
    simulations_loop MAX_NUM_GUESSES words draws num_won guess_nums
    = Summarised (length guess_nums') guess_nums'
    ∧ length guess_nums'
      = num_won
        + count (λ solution,
                   reports_win (simulate MAX_NUM_GUESSES words solution))
            draws
    ∧ Forall (λ n, 1 ≤ n ∧ n ≤ MAX_NUM_GUESSES) guess_nums'.
Proof.
  induction draws as [|solution draws IH];
    intros num_won guess_nums Hdraws Hnum Hnums.
  { exists guess_nums. simpl. rewrite count_nil. subst num_won.
    split; [done|]. split; [lia|done]. }
  apply Forall_cons in Hdraws as [Hsol Hdraws].
  destruct (simulate_returns solution Hsol) as (final & Hrun & Hmax & Hone).
  cbn [simulations_loop]. rewrite count_cons, Hrun. unfold report.
  destruct (won final) eqn:Hw.
  - destruct (IH (num_won + 1) (guess_nums ++ [length (guesses final)]))
      as (l & Hloop & Hlen & Hall); [done|..].
    + rewrite length_app. simpl. lia.
    + apply Forall_app. split; [done|]. apply Forall_singleton.
      split; [by apply Hone|done].
    + exists l. rewrite Hloop. split; [done|]. split; [|done].
      rewrite Hlen. simpl. lia.
  - destruct (IH num_won guess_nums) as (l & Hloop & Hlen & Hall); [done..|].
    exists l. rewrite Hloop. split; [done|]. split; [|done].
    rewrite Hlen. simpl. lia.
Qed.

End BatchFacts.

(** X21. [run_simulations] divides by zero when it is asked for no
    simulation.  On a corpus of five-letter words over the alphabet, with
    every solution drawn from it, it raises the error of the mean of an
    empty list when none of the games is won, and otherwise summarises as
    many wins as there are games won, each with a number of guesses
    between one and [MAX_NUM_GUESSES]. *)
Theorem run_simulations_summary `{SetOrder} (words draws : list word) :
  (∀ fuel, run_simulations fuel words [] = RunRaised ZeroDivisionError)
  ∧ (Forall (valid_word WORD_LENGTH) words →
     Forall (λ solution, solution ∈ words) draws →
     draws ≠ [] →
     (count (λ solution,
               reports_win (simulate MAX_NUM_GUESSES words solution)) draws
      = 0
      ∧ run_simulations MAX_NUM_GUESSES words draws
        = RunRaised StatisticsError)
     ∨ ∃ guess_nums,
         run_simulations MAX_NUM_GUESSES words draws
         = Summarised (length guess_nums) guess_nums
         ∧ 1 ≤ length guess_nums
         ∧ length guess_nums
           = count (λ solution,
                      reports_win (simulate MAX_NUM_GUESSES words solution))
               draws
         ∧ Forall (λ n, 1 ≤ n ∧ n ≤ MAX_NUM_GUESSES) guess_nums).
Proof.
  split; [done|]. intros Hwords Hdraws Hne.
  destruct (simulations_loop_counts words Hwords draws 0 [] Hdraws eq_refl)
    as (l & Hloop & Hlen & Hall); [constructor|].
  unfold run_simulations. rewrite Hloop.
  rewrite bool_decide_false by (by destruct draws).
  destruct l as [|n l].
  - left. rewrite bool_decide_true by done. simpl in Hlen. split; [lia|done].
  - right. rewrite bool_decide_false by done. exists (n :: l).
    split; [done|]. split; [simpl; lia|]. split; [lia|done].
Qed.

Lemma run_simulations_summary_witness :
  Forall (valid_word WORD_LENGTH) [w "later"; w "piano"; w "boots"]
  ∧ Forall (λ solution, solution ∈ [w "later"; w "piano"; w "boots"])
      [w "piano"; w "later"]
  ∧ [w "piano"; w "later"] ≠ []
  ∧ @run_simulations elements_order MAX_NUM_GUESSES
      [w "later"; w "piano"; w "boots"] [w "piano"; w "later"]
    = Summarised 2 [2; 1]
  ∧ ((count (λ solution,
               reports_win
                 (@simulate elements_order MAX_NUM_GUESSES
                    [w "later"; w "piano"; w "boots"] solution))
        [w "piano"; w "later"] = 0
      ∧ @run_simulations elements_order MAX_NUM_GUESSES
          [w "later"; w "piano"; w "boots"] [w "piano"; w "later"]
        = RunRaised StatisticsError)
     ∨ ∃ guess_nums,
         @run_simulations elements_order MAX_NUM_GUESSES
           [w "later"; w "piano"; w "boots"] [w "piano"; w "later"]
         = Summarised (length guess_nums) guess_nums
         ∧ 1 ≤ length guess_nums
         ∧ length guess_nums
           = count (λ solution,
                      reports_win
                        (@simulate elements_order MAX_NUM_GUESSES
                           [w "later"; w "piano"; w "boots"] solution))
               [w "piano"; w "later"]
         ∧ Forall (λ n, 1 ≤ n ∧ n ≤ MAX_NUM_GUESSES) guess_nums).
Proof.
  assert (Forall (valid_word WORD_LENGTH) [w "later"; w "piano"; w "boots"])
    as Hwords.
  { apply (bool_decide_unpack _). vm_compute. exact I. }
  assert (Forall (λ solution, solution ∈ [w "later"; w "piano"; w "boots"])
            [w "piano"; w "later"]) as Hdraws.
  { apply (bool_decide_unpack _). vm_compute. exact I. }
  assert ([w "piano"; w "later"] ≠ []) as Hne by done.
  split; [exact Hwords|]. split; [exact Hdraws|]. split; [exact Hne|].
  split; [vm_compute; reflexivity|].
  exact (proj2 (@run_simulations_summary elements_order
                  [w "later"; w "piano"; w "boots"] [w "piano"; w "later"])
           Hwords Hdraws Hne).
Defined.
